(** * Store selection engine

    A shallow embedding of [src/utils/strategyEngine.ts].

    The development follows the TypeScript source function by function:
    [StrategyEngine.selectStores], its six strategies, the analytics of
    [generateResult], and [PerformanceAnalyzer.generateHistogram]; around
    the engine, the region counts of [useTargetMetrics], the total of the
    histogram panel, [extractRetailerBrand], and the line reader and cell
    writer of [CSVParser].

    Conventions of the embedding.
    - A JavaScript [number] that holds a finite value is an exact rational
      ([Q]); comparisons, differences used as sort comparators and sums are
      taken exactly.  The results of the two divisions whose divisor can be
      zero ([averageRevenue], [regionCoverage]) are of type [number], which
      adds [NaN] and the infinities.  What a sum of doubles rounds to, and
      its overflow, are not modelled: no statement below gives the value
      that the code computes as the sum of the revenues of a non-empty
      list, or a quotient of it.
    - Products with a decimal literal followed by [Math.floor], [Math.round]
      or [Math.ceil] depend on IEEE rounding (for instance
      [Math.floor(90 * 0.7)] is 62).  They are the operations of the class
      [Rounding]; theorems hold for every instance, and [exact_rounding]
      evaluates them in exact arithmetic.
    - A store object is a record of its fields together with [ref], the
      identity of the object: [Array.prototype.includes] compares identities.
    - An array that the code sorts in place is passed through the functions
      explicitly: a strategy returns its selection and the final content of
      the array it was called on.
    - Objects used as dictionaries ([Record<string, T>]) are association lists
      of their own properties in the order of their creation; [entries]
      lists them as [Object.entries] does, array indices first.  What an
      object literal inherits from [Object.prototype] is read by [get], and
      [group_push_object] is the reducer of [groupStoresByRegion] on such an
      object: it throws under a region that names an inherited member.  The
      strategies, [revenue_per_region] and [storesByRegion] are written on
      the own properties, which is what the code computes when no region
      names an inherited member ([plain_regions], lemma
      [groupStoresByRegion_returns]); the statements that say what a call
      returns or what a dictionary holds carry that hypothesis.
    - The [config] argument is handed to every strategy and read by none; it
      is left out. *)

From Stdlib Require Import String Ascii List ZArith QArith Qround Qminmax.
From Stdlib Require Import Bool Arith Lia Lqa Permutation Sorted.
Import ListNotations.

Close Scope Q_scope.
Open Scope nat_scope.

(** ** Numbers *)

Inductive number : Type :=
| Num (q : Q)
| NaN
| PosInfinity
| NegInfinity.

(** [x / y] for finite [x] and a divisor [y] that is never negative zero. *)
Definition js_div (x y : Q) : number :=
  if Qeq_bool y 0 then
    if Qeq_bool x 0 then NaN
    else if Qle_bool 0 x then PosInfinity else NegInfinity
  else Num (x / y)%Q.

Definition Qlt_bool (x y : Q) : bool := negb (Qle_bool y x).

Definition Qnat (n : nat) : Q := inject_Z (Z.of_nat n).

(** The float computations whose value depends on rounding, with what holds
    of them for IEEE doubles: multiplication by a non-negative factor and
    [Math.floor] are monotone, and a product with a literal below one stays
    below the array length. *)
Class Rounding : Type := {
  (** [Math.floor(n * c)], [n] an array length, [c] a literal in [0, 1) *)
  floor_mul : nat -> Q -> nat;
  (** [Math.round(t * c)] *)
  round_mul : Z -> Q -> Z;
  (** [Math.ceil(n * c)], [n] an array length *)
  ceil_mul : nat -> Q -> Z;
  (** [Math.ceil(t * (a / b))], [a] and [b] array lengths *)
  ceil_share : Z -> nat -> nat -> Z;
  floor_mul_mono : forall n c d, (c <= d)%Q -> floor_mul n c <= floor_mul n d;
  floor_mul_lt : forall n c, 0 < n -> (c < 1)%Q -> floor_mul n c < n
}.

(** ** Data model ([src/types/index.ts]) *)

Record StoreData : Type := mkStore {
  ref : nat;
  naam : string;
  crmId : string;
  storeId : string;
  stad : string;
  straat : string;
  nummer : string;
  postcode : string;
  kanaal : string;
  type : string;
  fieldSalesRegio : string;
  klantgroep : string;
  prodSelect : Q;
  strategie : string;
  storeSize : Q
}.

(** The strategy identifiers are the strings ["revenue-focus"],
    ["geographic-coverage"], ["growth-opportunities"], ["portfolio-balance"],
    ["market-penetration"] and ["demographic-targeting"]; the dispatcher has
    a [default] branch for any other string. *)
Definition SelectionStrategy : Type := string.
Bind Scope string_scope with SelectionStrategy.

Record TargetConfig : Type := mkTarget { total : Z }.

Record PerformanceDistribution : Type := mkDistribution {
  high : nat;
  medium : nat;
  low : nat
}.

Record Statistics : Type := mkStatistics {
  totalStores : nat;
  uniqueRegions : nat;
  uniqueRetailers : nat;
  revenuePerRegion : list (string * Q)
}.

Record SelectionResult : Type := mkResult {
  selectedStores : list StoreData;
  totalRevenue : Q;
  averageRevenue : number;
  regionCoverage : number;
  performanceDistribution : PerformanceDistribution;
  statistics : Statistics
}.

(** ** Array primitives *)

Section Arrays.
Context {A : Type}.

(** [Array.prototype.slice(s, e)], negative indices counting from the end. *)
Definition slice (l : list A) (s e : Z) : list A :=
  let len := Z.of_nat (length l) in
  let k := if (s <? 0)%Z then Z.max (len + s) 0 else Z.min s len in
  let final := if (e <? 0)%Z then Z.max (len + e) 0 else Z.min e len in
  firstn (Z.to_nat (final - k)) (skipn (Z.to_nat k) l).

(** [Array.prototype.sort(cmp)]: the sort is stable, and [cmp a b < 0]
    places [a] before [b]. *)
Fixpoint insert (cmp : A -> A -> Q) (x : A) (l : list A) : list A :=
  match l with
  | [] => [x]
  | y :: l' =>
      if Qlt_bool (cmp y x) 0 then y :: insert cmp x l' else x :: y :: l'
  end.

Definition sort (cmp : A -> A -> Q) (l : list A) : list A :=
  fold_right (insert cmp) [] l.

(** [Array.prototype.reduce(f)] without an initial value, on an array
    whose first element is [x]. *)
Definition reduce1 (f : A -> A -> A) (x : A) (l : list A) : A :=
  fold_left f l x.
End Arrays.

(** [[...new Set(l)]]: the distinct strings of [l] in order of first
    occurrence. *)
Fixpoint distinct_from (seen l : list string) : list string :=
  match l with
  | [] => []
  | x :: l' =>
      if existsb (String.eqb x) seen then distinct_from seen l'
      else x :: distinct_from (x :: seen) l'
  end.

Definition distinct (l : list string) : list string := distinct_from [] l.

(** [set.has(x)] and [set.size] on such a list. *)
Definition has (s : list string) (x : string) : bool :=
  existsb (String.eqb x) s.

(** [arr.includes(store)]: identity of objects. *)
Definition includes (arr : list StoreData) (store : StoreData) : bool :=
  existsb (fun s => ref s =? ref store) arr.

(** ** Dictionaries *)

Section Dict.
Context {V : Type}.

(** The own property of [d] under the key [k], if there is one. *)
Fixpoint lookup (k : string) (d : list (string * V)) : option V :=
  match d with
  | [] => None
  | (k', v) :: d' => if String.eqb k k' then Some v else lookup k d'
  end.

(** [d[k] = v]: an existing key keeps its place, a new key goes last. *)
Fixpoint assign (k : string) (v : V) (d : list (string * V))
  : list (string * V) :=
  match d with
  | [] => [(k, v)]
  | (k', v') :: d' =>
      if String.eqb k k' then (k, v) :: d' else (k', v') :: assign k v d'
  end.
End Dict.

(** *** Enumeration of the keys *)

Definition digit (c : ascii) : option N :=
  let n := N_of_ascii c in
  if ((48 <=? n) && (n <=? 57))%N then Some (n - 48)%N else None.

Fixpoint decimal (s : string) (acc : N) : option N :=
  match s with
  | EmptyString => Some acc
  | String c s' =>
      match digit c with
      | Some d => decimal s' (10 * acc + d)%N
      | None => None
      end
  end.

(** A key is an array index when it is the canonical decimal form of an
    integer from 0 to 2^32 - 2: digits only and no leading zero. *)
Definition array_index (key : string) : option N :=
  match key with
  | EmptyString => None
  | String c rest =>
      if Ascii.eqb c "0" && negb (String.eqb rest EmptyString) then None
      else
        match decimal key 0 with
        | Some n => if (n <=? 4294967294)%N then Some n else None
        | None => None
        end
  end.

Definition is_index (key : string) : bool :=
  match array_index key with Some _ => true | None => false end.

Definition index_value (key : string) : Q :=
  match array_index key with
  | Some n => inject_Z (Z.of_N n)
  | None => 0%Q
  end.

Definition by_index {V : Type} (a b : string * V) : Q :=
  (index_value (fst a) - index_value (fst b))%Q.

(** [Object.entries(d)], and [Object.keys(d)] as its first components: the
    own keys that are array indices come first, in ascending numeric order,
    then the other keys in the order in which they were created. *)
Definition entries {V : Type} (d : list (string * V)) : list (string * V) :=
  sort by_index (filter (fun e => is_index (fst e)) d)
  ++ filter (fun e => negb (is_index (fst e))) d.

(** *** What an object literal inherits *)

(** The dictionaries of the code are object literals [{}], whose prototype
    is [Object.prototype]: reading [acc[key]] under a key that is not an own
    property finds the member of the prototype of that name, if there is
    one. *)
Definition prototype_names : list string :=
  [ "constructor"; "__defineGetter__"; "__defineSetter__"; "hasOwnProperty";
    "__lookupGetter__"; "__lookupSetter__"; "isPrototypeOf";
    "propertyIsEnumerable"; "toString"; "valueOf"; "__proto__";
    "toLocaleString" ]%string.

Definition inherited (key : string) : bool :=
  existsb (String.eqb key) prototype_names.

Inductive member (V : Type) : Type :=
| Own (v : V)
| Inherited
| Undefined.

Arguments Own {V} v.
Arguments Inherited {V}.
Arguments Undefined {V}.

(** [d[key]] *)
Definition get {V : Type} (key : string) (d : list (string * V)) : member V :=
  match lookup key d with
  | Some v => Own v
  | None => if inherited key then Inherited else Undefined
  end.

(** The reducer shared by [groupStoresByRegion] and the demographic
    grouping: [if (!acc[key]) acc[key] = []; acc[key].push(store)], on the
    own properties of [acc].  A key of the demographic grouping holds a
    hyphen and so names no inherited member. *)
Definition group_push (key : StoreData -> string)
  (acc : list (string * list StoreData)) (store : StoreData)
  : list (string * list StoreData) :=
  match lookup (key store) acc with
  | None => assign (key store) [store] acc
  | Some g => assign (key store) (g ++ [store]) acc
  end.

Definition group_by (key : StoreData -> string) (stores : list StoreData)
  : list (string * list StoreData) :=
  fold_left (group_push key) stores [].

Definition groupStoresByRegion (stores : list StoreData)
  : list (string * list StoreData) :=
  group_by fieldSalesRegio stores.

(** The same reducer with what the object literal inherits.  A member of
    [Object.prototype] is truthy, so [if (!acc[key])] creates no array under
    its name, and it has no method [push]: [acc[key].push(store)] throws a
    [TypeError], which ends the [reduce] and the call.  [None] is that
    exception. *)
Definition group_push_object (key : StoreData -> string)
  (acc : list (string * list StoreData)) (store : StoreData)
  : option (list (string * list StoreData)) :=
  match get (key store) acc with
  | Undefined => Some (assign (key store) [store] acc)
  | Own g => Some (assign (key store) (g ++ [store]) acc)
  | Inherited => None
  end.

Fixpoint reduce_object (key : StoreData -> string)
  (stores : list StoreData) (acc : list (string * list StoreData))
  : option (list (string * list StoreData)) :=
  match stores with
  | [] => Some acc
  | store :: rest =>
      match group_push_object key acc store with
      | Some acc' => reduce_object key rest acc'
      | None => None
      end
  end.

Definition group_by_object (key : StoreData -> string)
  (stores : list StoreData) : option (list (string * list StoreData)) :=
  reduce_object key stores [].

Definition groupStoresByRegion_object (stores : list StoreData)
  : option (list (string * list StoreData)) :=
  group_by_object fieldSalesRegio stores.

(** [regionStores.reduce((best, current) =>
      current.prodSelect > best.prodSelect ? current : best)];
    [reduce] throws on the empty array, which every caller excludes by a
    length test: [None] stands for that case. *)
Definition better (best current : StoreData) : StoreData :=
  if Qlt_bool (prodSelect best) (prodSelect current) then current else best.

Definition best_of (regionStores : list StoreData) : option StoreData :=
  match regionStores with
  | [] => None
  | s :: rest => Some (reduce1 better s rest)
  end.

Definition by_revenue_desc (a b : StoreData) : Q :=
  (prodSelect b - prodSelect a)%Q.

Definition by_revenue_asc (a b : StoreData) : Q :=
  (prodSelect a - prodSelect b)%Q.

Definition len (l : list StoreData) : Z := Z.of_nat (length l).

(** ** The strategies *)

(** Every strategy returns [(selected, stores')], where [stores'] is the
    content of the array [stores] when the strategy returns. *)

Definition revenueMaximizationSelection
  (stores : list StoreData) (targetConfig : TargetConfig)
  : list StoreData * list StoreData :=
  let stores' := sort by_revenue_desc stores in
  (slice stores' 0 (total targetConfig), stores').

(** *** Geographic distribution *)

(** The body of the first loop over [regions]. *)
Definition geo_first_step (target : Z)
  (storesByRegion : list (string * list StoreData))
  (selectedStores : list StoreData) (region : string) : list StoreData :=
  let regionStores :=
    match lookup region storesByRegion with Some g => g | None => [] end in
  if (0 <? length regionStores) && (len selectedStores <? target)%Z then
    match best_of regionStores with
    | Some bestStore => selectedStores ++ [bestStore]
    | None => selectedStores
    end
  else selectedStores.

Definition geo_first_pass (target : Z)
  (storesByRegion : list (string * list StoreData)) (regions : list string)
  : list StoreData :=
  fold_left (geo_first_step target storesByRegion) regions [].

(** [for (const region of regions)
       if (availableByRegion[region]) availableByRegion[region].sort(...)] *)
Definition sort_group (d : list (string * list StoreData)) (region : string)
  : list (string * list StoreData) :=
  match lookup region d with
  | Some g => assign region (sort by_revenue_desc g) d
  | None => d
  end.

Definition sort_groups (regions : list string)
  (availableByRegion : list (string * list StoreData))
  : list (string * list StoreData) :=
  fold_left sort_group regions availableByRegion.

(** The round-robin [while] loop.  Each iteration increments [regionIndex]
    and the loop leaves once it exceeds [regions.length * 10], so
    [regions.length * 10 + 1] iterations are never exceeded; [fuel] counts
    them ([round_robin_fuel] below shows that more fuel changes nothing). *)
Fixpoint round_robin (fuel : nat) (regions : list string) (target : Z)
  (regionIndex : nat) (selectedStores : list StoreData)
  (availableByRegion : list (string * list StoreData)) : list StoreData :=
  match fuel with
  | O => selectedStores
  | S fuel' =>
      if (len selectedStores <? target)%Z then
        let taken :=
          match nth_error regions (regionIndex mod length regions) with
          | Some region =>
              match lookup region availableByRegion with
              | Some (s :: rest) =>
                  (selectedStores ++ [s], assign region rest availableByRegion)
              | _ => (selectedStores, availableByRegion)
              end
          | None => (selectedStores, availableByRegion)
          end in
        let regionIndex' := S regionIndex in
        if length regions * 10 <? regionIndex' then fst taken
        else
          round_robin fuel' regions target regionIndex' (fst taken) (snd taken)
      else selectedStores
  end.

Definition geographicDistributionSelection
  (stores : list StoreData) (targetConfig : TargetConfig)
  : list StoreData * list StoreData :=
  let target := total targetConfig in
  let regions := distinct (map fieldSalesRegio stores) in
  let storesByRegion := groupStoresByRegion stores in
  let selectedStores := geo_first_pass target storesByRegion regions in
  let remainingSlots := (target - len selectedStores)%Z in
  let selectedStores :=
    if (0 <? remainingSlots)%Z then
      let availableStores :=
        filter (fun store => negb (includes selectedStores store)) stores in
      let availableByRegion :=
        sort_groups regions (groupStoresByRegion availableStores) in
      round_robin (length regions * 10 + 1) regions target 0
        selectedStores availableByRegion
    else selectedStores in
  (slice selectedStores 0 target, stores).

(** *** Growth potential *)

Definition growth_first_step (target : Z)
  (state : list StoreData * list string) (store : StoreData)
  : list StoreData * list string :=
  let '(selectedStores, usedRegions) := state in
  if negb (has usedRegions (fieldSalesRegio store))
     && (len selectedStores <? target)%Z
  then (selectedStores ++ [store], usedRegions ++ [fieldSalesRegio store])
  else (selectedStores, usedRegions).

Definition growth_first_pass (target : Z) (growthCandidates : list StoreData)
  : list StoreData * list string :=
  fold_left (growth_first_step target) growthCandidates ([], []).

Definition growth_second_step (target : Z)
  (selectedStores : list StoreData) (store : StoreData) : list StoreData :=
  if negb (includes selectedStores store) && (len selectedStores <? target)%Z
  then selectedStores ++ [store]
  else selectedStores.

Definition growth_second_pass (target : Z) (growthCandidates : list StoreData)
  (selectedStores : list StoreData) : list StoreData :=
  fold_left (growth_second_step target) growthCandidates selectedStores.

Definition growthPotentialSelection `{Rounding}
  (stores : list StoreData) (targetConfig : TargetConfig)
  : list StoreData * list StoreData :=
  let target := total targetConfig in
  let sortedStores := sort by_revenue_asc stores in
  let totalStores := length sortedStores in
  let growthCandidates :=
    slice sortedStores
      (Z.of_nat (floor_mul totalStores (2 # 10)))
      (Z.of_nat (floor_mul totalStores (7 # 10))) in
  let growthCandidates :=
    if (len growthCandidates <? target)%Z then
      growthCandidates
        ++ slice sortedStores 0 (Z.of_nat (floor_mul totalStores (2 # 10)))
    else growthCandidates in
  let selectedStores := fst (growth_first_pass target growthCandidates) in
  let selectedStores :=
    growth_second_pass target growthCandidates selectedStores in
  (slice selectedStores 0 target, sortedStores).

(** *** Portfolio balance *)

(** The loop over [underrepresentedRegions], with its [break]. *)
Fixpoint experimental_loop (experimentalCount : Z)
  (finalRemaining : list StoreData) (underrepresentedRegions : list string)
  (experimentalStores : list StoreData) : list StoreData :=
  match underrepresentedRegions with
  | [] => experimentalStores
  | region :: rest =>
      if (experimentalCount <=? len experimentalStores)%Z then
        experimentalStores
      else
        let regionStores :=
          filter (fun store => String.eqb (fieldSalesRegio store) region)
            finalRemaining in
        let experimentalStores :=
          if 0 <? length regionStores then
            match best_of regionStores with
            | Some bestInRegion => experimentalStores ++ [bestInRegion]
            | None => experimentalStores
            end
          else experimentalStores in
        experimental_loop experimentalCount finalRemaining rest
          experimentalStores
  end.

Definition portfolioBalanceSelection `{Rounding}
  (stores : list StoreData) (targetConfig : TargetConfig)
  : list StoreData * list StoreData :=
  let target := total targetConfig in
  let coreCount := round_mul target (7 # 10) in
  let growthCount := round_mul target (2 # 10) in
  let experimentalCount := (target - coreCount - growthCount)%Z in
  let '(coreStores, stores) :=
    geographicDistributionSelection stores (mkTarget coreCount) in
  let selectedStores := coreStores in
  let remainingStores :=
    filter (fun store => negb (includes selectedStores store)) stores in
  let growthStores :=
    fst (growthPotentialSelection remainingStores (mkTarget growthCount)) in
  let selectedStores := selectedStores ++ growthStores in
  let finalRemaining :=
    filter (fun store => negb (includes selectedStores store)) stores in
  let selectedStores :=
    if (0 <? length finalRemaining) && (0 <? experimentalCount)%Z then
      let regions := distinct (map fieldSalesRegio stores) in
      let selectedRegions := distinct (map fieldSalesRegio selectedStores) in
      let underrepresentedRegions :=
        filter (fun region => negb (has selectedRegions region)) regions in
      let experimentalStores :=
        experimental_loop experimentalCount finalRemaining
          underrepresentedRegions [] in
      let remaining :=
        sort by_revenue_asc
          (filter (fun store => negb (includes experimentalStores store))
             finalRemaining) in
      let experimentalStores :=
        experimentalStores
          ++ slice remaining 0 (experimentalCount - len experimentalStores) in
      selectedStores ++ experimentalStores
    else selectedStores in
  (slice selectedStores 0 target, stores).

(** *** Market penetration *)

Definition sum_revenue (l : list StoreData) : Q :=
  fold_left (fun sum store => (sum + prodSelect store)%Q) l 0%Q.

(** The entries of [regionDensity].  A group is created by its first
    [push], so the divisor of [avgRevenue] is at least one. *)
Record RegionDensity : Type := mkDensity {
  rd_region : string;
  rd_storeCount : nat;
  rd_avgRevenue : Q;
  rd_stores : list StoreData
}.

Definition density_of (entry : string * list StoreData) : RegionDensity :=
  let '(region, regionStores) := entry in
  {| rd_region := region;
     rd_storeCount := length regionStores;
     rd_avgRevenue := (sum_revenue regionStores / Qnat (length regionStores))%Q;
     rd_stores := regionStores |}.

Definition by_density (a b : RegionDensity) : Q :=
  let densityDiff :=
    (Z.of_nat (rd_storeCount b) - Z.of_nat (rd_storeCount a))%Z in
  if negb (densityDiff =? 0)%Z then inject_Z densityDiff
  else (rd_avgRevenue b - rd_avgRevenue a)%Q.

Fixpoint market_loop `{Rounding} (target : Z) (nstores : nat)
  (regionDensity : list RegionDensity) (selectedStores : list StoreData)
  : list StoreData :=
  match regionDensity with
  | [] => selectedStores
  | d :: rest =>
      if (target <=? len selectedStores)%Z then selectedStores
      else
        let regionStores := rd_stores d in
        let remainingSlots := (target - len selectedStores)%Z in
        let storesToSelect :=
          Z.max 1
            (Z.min remainingSlots
               (ceil_share target (length regionStores) nstores)) in
        let topStores :=
          slice (sort by_revenue_desc regionStores) 0 storesToSelect in
        market_loop target nstores rest (selectedStores ++ topStores)
  end.

Definition marketPenetrationSelection `{Rounding}
  (stores : list StoreData) (targetConfig : TargetConfig)
  : list StoreData * list StoreData :=
  let target := total targetConfig in
  let storesByRegion := groupStoresByRegion stores in
  let regionDensity :=
    sort by_density (map density_of (entries storesByRegion)) in
  let selectedStores := market_loop target (length stores) regionDensity [] in
  (slice selectedStores 0 target, stores).

(** *** Demographic targeting *)

Record SegmentPerformance : Type := mkSegment {
  seg_segment : string;
  seg_storeCount : nat;
  seg_avgRevenue : Q;
  seg_totalRevenue : Q;
  seg_stores : list StoreData
}.

Definition demographic_key (store : StoreData) : string :=
  (klantgroep store ++ "-" ++ kanaal store)%string.

Definition segment_of (entry : string * list StoreData) : SegmentPerformance :=
  let '(segment, segmentStores) := entry in
  {| seg_segment := segment;
     seg_storeCount := length segmentStores;
     seg_avgRevenue :=
       (sum_revenue segmentStores / Qnat (length segmentStores))%Q;
     seg_totalRevenue := sum_revenue segmentStores;
     seg_stores := sort by_revenue_desc segmentStores |}.

Definition by_avg_revenue (a b : SegmentPerformance) : Q :=
  (seg_avgRevenue b - seg_avgRevenue a)%Q.

Fixpoint demographic_loop `{Rounding} (target : Z)
  (segmentPerformance : list SegmentPerformance)
  (selectedStores : list StoreData) : list StoreData :=
  match segmentPerformance with
  | [] => selectedStores
  | seg :: rest =>
      if (target <=? len selectedStores)%Z then selectedStores
      else
        let segmentStores := seg_stores seg in
        let remainingSlots := (target - len selectedStores)%Z in
        let storesToSelect :=
          Z.min remainingSlots
            (Z.max 1 (ceil_mul (length segmentStores) (3 # 10))) in
        demographic_loop target rest
          (selectedStores ++ slice segmentStores 0 storesToSelect)
  end.

Definition demographicTargetingSelection `{Rounding}
  (stores : list StoreData) (targetConfig : TargetConfig)
  : list StoreData * list StoreData :=
  let target := total targetConfig in
  let storesByDemographic := group_by demographic_key stores in
  let segmentPerformance :=
    sort by_avg_revenue (map segment_of (entries storesByDemographic)) in
  let selectedStores := demographic_loop target segmentPerformance [] in
  (slice selectedStores 0 target, stores).

(** ** Result analytics *)

(** [naam.split(' ')[0]] *)
Fixpoint first_word (s : string) : string :=
  match s with
  | EmptyString => EmptyString
  | String c s' =>
      if Ascii.eqb c " " then EmptyString else String c (first_word s')
  end.

(** A threshold read past the end of [sortedRevenues] is [undefined], and
    every comparison with it is false. *)
Definition at_least (v : Q) (threshold : option Q) : bool :=
  match threshold with Some t => Qle_bool t v | None => false end.

Definition below (v : Q) (threshold : option Q) : bool :=
  match threshold with Some t => Qlt_bool v t | None => false end.

(** [revenuePerRegion[region] = (revenuePerRegion[region] || 0) + prodSelect],
    for regions that do not name a member of [Object.prototype]: under such
    a name the left operand is the inherited member and the sum a string. *)
Definition revenue_per_region (selectedStores : list StoreData)
  : list (string * Q) :=
  fold_left
    (fun revenuePerRegion store =>
       let region := fieldSalesRegio store in
       let old :=
         match lookup region revenuePerRegion with
         | Some r => r
         | None => 0%Q
         end in
       assign region (old + prodSelect store)%Q revenuePerRegion)
    selectedStores [].

Definition generateResult `{Rounding}
  (selectedStores allStores : list StoreData) : SelectionResult :=
  let totalRevenue := sum_revenue selectedStores in
  let averageRevenue := js_div totalRevenue (Qnat (length selectedStores)) in
  let uniqueRegions := distinct (map fieldSalesRegio selectedStores) in
  let totalRegions := distinct (map fieldSalesRegio allStores) in
  let regionCoverage :=
    js_div (Qnat (length uniqueRegions)) (Qnat (length totalRegions)) in
  let revenues := map prodSelect selectedStores in
  let sortedRevenues := sort (fun a b => (b - a)%Q) revenues in
  let highThreshold :=
    nth_error sortedRevenues (floor_mul (length sortedRevenues) (33 # 100)) in
  let mediumThreshold :=
    nth_error sortedRevenues (floor_mul (length sortedRevenues) (66 # 100)) in
  let performanceDistribution :=
    {| high :=
         length (filter (fun store => at_least (prodSelect store) highThreshold)
                   selectedStores);
       medium :=
         length (filter (fun store =>
                           at_least (prodSelect store) mediumThreshold
                           && below (prodSelect store) highThreshold)
                   selectedStores);
       low :=
         length (filter (fun store => below (prodSelect store) mediumThreshold)
                   selectedStores) |} in
  let uniqueRetailers :=
    distinct (map (fun store => first_word (naam store)) selectedStores) in
  {| selectedStores := selectedStores;
     totalRevenue := totalRevenue;
     averageRevenue := averageRevenue;
     regionCoverage := regionCoverage;
     performanceDistribution := performanceDistribution;
     statistics :=
       {| totalStores := length selectedStores;
          uniqueRegions := length uniqueRegions;
          uniqueRetailers := length uniqueRetailers;
          revenuePerRegion := revenue_per_region selectedStores |} |}.

Definition createEmptyResult : SelectionResult :=
  {| selectedStores := [];
     totalRevenue := 0%Q;
     averageRevenue := Num 0%Q;
     regionCoverage := Num 0%Q;
     performanceDistribution := {| high := 0; medium := 0; low := 0 |};
     statistics :=
       {| totalStores := 0;
          uniqueRegions := 0;
          uniqueRetailers := 0;
          revenuePerRegion := [] |} |}.

(** ** The dispatcher *)

(** [filteredStores || stores]: an array, empty or not, is truthy; only an
    absent argument ([None]) yields [stores]. *)
Definition working (stores : list StoreData)
  (filteredStores : option (list StoreData)) : list StoreData :=
  match filteredStores with
  | Some filtered => filtered
  | None => stores
  end.

(** The [switch] on the strategy identifier, with its [default]. *)
Definition dispatch `{Rounding} (strategy : SelectionStrategy)
  (workingStores : list StoreData) (targetConfig : TargetConfig)
  : list StoreData * list StoreData :=
  if String.eqb strategy "revenue-focus" then
    revenueMaximizationSelection workingStores targetConfig
  else if String.eqb strategy "geographic-coverage" then
    geographicDistributionSelection workingStores targetConfig
  else if String.eqb strategy "growth-opportunities" then
    growthPotentialSelection workingStores targetConfig
  else if String.eqb strategy "portfolio-balance" then
    portfolioBalanceSelection workingStores targetConfig
  else if String.eqb strategy "market-penetration" then
    marketPenetrationSelection workingStores targetConfig
  else if String.eqb strategy "demographic-targeting" then
    demographicTargetingSelection workingStores targetConfig
  else revenueMaximizationSelection workingStores targetConfig.

(** The caller's two arrays after a call: [workingStores] is an alias of
    [filteredStores] when that argument is given and of [stores] otherwise,
    so what a strategy does to the array it is called on shows there. *)
Record Arrays : Type := mkArrays {
  arr_stores : list StoreData;
  arr_filteredStores : option (list StoreData)
}.

Definition selectStores `{Rounding} (stores : list StoreData)
  (strategy : SelectionStrategy) (targetConfig : TargetConfig)
  (filteredStores : option (list StoreData)) : SelectionResult * Arrays :=
  let workingStores := working stores filteredStores in
  if length workingStores =? 0 then
    (createEmptyResult, mkArrays stores filteredStores)
  else
    let '(selectedStores, workingStores) :=
      dispatch strategy workingStores targetConfig in
    (generateResult selectedStores workingStores,
     match filteredStores with
     | Some _ => mkArrays stores (Some workingStores)
     | None => mkArrays workingStores None
     end).

(** ** The histogram ([PerformanceAnalyzer.generateHistogram]) *)

(** [range] holds the two numbers that the label prints,
    [Math.round(binMin / 1000)] and [Math.round(binMax / 1000)]. *)
Record HistogramBin : Type := mkBin {
  range : option (Z * Z);
  count : nat;
  bin_stores : list StoreData
}.

(** [Math.round]: halves go up. *)
Definition js_round (x : Q) : Z := Qfloor (x + (1 # 2))%Q.

(** On the empty array [Math.min()] is [Infinity] and [Math.max()] is
    [-Infinity]: every bound is [NaN], no comparison holds and the label
    prints [NaN], which is [None] here.  With [bins = 0] the loop body, the
    only reader of [binSize], does not run. *)
Definition generateHistogram (stores : list StoreData) (bins : nat)
  : list HistogramBin :=
  let revenues := map prodSelect stores in
  match revenues with
  | [] => map (fun _ => mkBin None 0 []) (seq 0 bins)
  | r :: rest =>
      let min := fold_left Qmin rest r in
      let max := fold_left Qmax rest r in
      let binSize := ((max - min) / Qnat bins)%Q in
      map
        (fun i =>
           let binMin := (min + Qnat i * binSize)%Q in
           let binMax := (min + Qnat (i + 1) * binSize)%Q in
           let binStores :=
             filter
               (fun store =>
                  Qle_bool binMin (prodSelect store)
                  && (if i =? bins - 1
                      then Qle_bool (prodSelect store) binMax
                      else Qlt_bool (prodSelect store) binMax))
               stores in
           mkBin (Some (js_round (binMin / 1000), js_round (binMax / 1000)))
             (length binStores) binStores)
        (seq 0 bins)
  end.

(** ** Rounding in exact arithmetic *)

#[export, refine] Instance exact_rounding : Rounding := {|
  floor_mul n c := Z.to_nat (Qfloor (Qnat n * c));
  round_mul t c := js_round (inject_Z t * c);
  ceil_mul n c := Qceiling (Qnat n * c);
  ceil_share t a b := Qceiling (inject_Z t * (Qnat a / Qnat b));
  floor_mul_mono := _;
  floor_mul_lt := _
|}.
Proof.
  - intros n c d Hcd.
    assert (Hn : (0 <= Qnat n)%Q).
    { unfold Qnat. change 0%Q with (inject_Z 0). rewrite <- Zle_Qle. lia. }
    assert (Hle : (Qfloor (Qnat n * c) <= Qfloor (Qnat n * d))%Z).
    { apply Qfloor_resp_le.
      rewrite (Qmult_comm _ c), (Qmult_comm _ d).
      apply Qmult_le_compat_r; [exact Hcd | exact Hn]. }
    lia.
  - intros n c Hn Hc.
    assert (Hpos : (0 < Qnat n)%Q).
    { unfold Qnat. change 0%Q with (inject_Z 0). rewrite <- Zlt_Qlt. lia. }
    assert (Hlt : (Qnat n * c < Qnat n)%Q) by nra.
    assert (Hfl : (Qfloor (Qnat n * c) < Z.of_nat n)%Z).
    { rewrite Zlt_Qlt. eapply Qle_lt_trans; [apply Qfloor_le | exact Hlt]. }
    lia.
Defined.

(** ** Sample data *)

(** A store with reference [i], the given name, region and revenue, and
    fixed values in the fields that no strategy reads. *)
Definition sample (i : nat) (name region : string) (revenue : Z) : StoreData :=
  {| ref := i; naam := name; crmId := ""; storeId := ""; stad := "";
     straat := ""; nummer := ""; postcode := ""; kanaal := "Retail";
     type := "Shop"; fieldSalesRegio := region; klantgroep := "A";
     prodSelect := inject_Z revenue; strategie := ""; storeSize := 0%Q |}.

(** Five stores in North with revenues 100 to 500, then five in South with
    revenues 150 to 550. *)
Definition ten_stores : list StoreData :=
  [ sample 0 "Alfa 1" "North" 100; sample 1 "Alfa 2" "North" 200;
    sample 2 "Alfa 3" "North" 300; sample 3 "Alfa 4" "North" 400;
    sample 4 "Alfa 5" "North" 500; sample 5 "Beta 1" "South" 150;
    sample 6 "Beta 2" "South" 250; sample 7 "Beta 3" "South" 350;
    sample 8 "Beta 4" "South" 450; sample 9 "Beta 5" "South" 550 ].

Definition revenues_of (l : list StoreData) : list (string * Q) :=
  map (fun s => (fieldSalesRegio s, prodSelect s)) l.

(** ** Callers and helpers around the engine *)

(** The filter panel ([FilterConfiguration], kept in the file
    [src/index.css]) sums the counts of the histogram it draws:
    [rawData.reduce((sum, bin) => sum + bin.count, 0)]. *)
Definition totalCount (rawData : list HistogramBin) : nat :=
  fold_left (fun sum bin => sum + count bin) rawData 0.

(** [useTargetMetrics]: the [storesByRegion] reducer,
    [acc[region] = (acc[region] || 0) + 1], for regions that do not name a
    member of [Object.prototype]: under such a name the left operand is the
    inherited member and the sum a string. *)
Definition storesByRegion (stores : list StoreData) : list (string * nat) :=
  fold_left
    (fun acc store =>
       let region := fieldSalesRegio store in
       let old := match lookup region acc with Some n => n | None => 0 end in
       assign region (old + 1) acc)
    stores [].

(** *** [extractRetailerBrand] ([src/utils/retailerUtils.ts]) *)

Definition knownRetailers : list string :=
  [ "Albert Heijn"; "Jumbo"; "Plus"; "Aldi"; "Coop"; "Spar"; "Vomar";
    "Picnic"; "Dirk"; "Dekamarkt"; "Lidl"; "Nettorama"; "Boni"; "Hoogvliet";
    "Jan Linders" ]%string.

(** [s.split(sep)] for a separator of one character: never an empty
    list. *)
Fixpoint split_on (sep : ascii) (s : string) : list string :=
  match s with
  | EmptyString => [EmptyString]
  | String c s' =>
      if Ascii.eqb c sep then EmptyString :: split_on sep s'
      else
        match split_on sep s' with
        | w :: ws => String c w :: ws
        | [] => [String c EmptyString]
        end
  end.

Definition extractRetailerBrand (storeName : string) : string :=
  match find (fun retailer => String.prefix retailer storeName) knownRetailers
  with
  | Some retailer => retailer
  | None =>
      let words := split_on " " storeName in
      match words with
      | w0 :: w1 :: _ => (w0 ++ " " ++ w1)%string
      | [w0] => if String.eqb w0 EmptyString then storeName else w0
      | [] => storeName
      end
  end.

(** *** Lines of CSV ([src/utils/csvParser.ts]) *)

(** Strings are sequences of code units below 256; [trim] removes the
    white space and line terminators among them. *)
Definition is_space (c : ascii) : bool :=
  existsb (Nat.eqb (nat_of_ascii c)) [9; 10; 11; 12; 13; 32; 160].

Fixpoint trim_start (s : string) : string :=
  match s with
  | EmptyString => EmptyString
  | String c s' => if is_space c then trim_start s' else s
  end.

Fixpoint trim_end (s : string) : string :=
  match s with
  | EmptyString => EmptyString
  | String c s' =>
      match trim_end s' with
      | EmptyString => if is_space c then EmptyString else String c EmptyString
      | t => String c t
      end
  end.

Definition trim (s : string) : string := trim_end (trim_start s).

(** The double quote character. *)
Definition dquote : ascii := ascii_of_nat 34.

(** The [while] loop of [parseCSVLineWithDelimiter], from position [i]
    ([line] is what is left to read) with the variables [current],
    [inQuotes] and [result]. *)
Fixpoint parse_from (line : string) (delimiter : ascii) (current : string)
  (inQuotes : bool) (result : list string) : list string :=
  match line with
  | EmptyString => result ++ [trim current]
  | String char rest =>
      if Ascii.eqb char dquote then
        match rest with
        | String nextChar rest' =>
            if inQuotes && Ascii.eqb nextChar dquote then
              parse_from rest' delimiter
                (current ++ String dquote EmptyString)%string inQuotes result
            else parse_from rest delimiter current (negb inQuotes) result
        | EmptyString =>
            parse_from rest delimiter current (negb inQuotes) result
        end
      else if Ascii.eqb char delimiter && negb inQuotes then
        parse_from rest delimiter EmptyString inQuotes
          (result ++ [trim current])
      else
        parse_from rest delimiter (current ++ String char EmptyString)%string
          inQuotes result
  end.

Definition parseCSVLineWithDelimiter (line : string) (delimiter : ascii)
  : list string :=
  parse_from line delimiter EmptyString false [].

Definition parseCSVLine (line : string) : list string :=
  parseCSVLineWithDelimiter line ",".

(** [value.replace], every double quote becoming two. *)
Fixpoint escape_quotes (value : string) : string :=
  match value with
  | EmptyString => EmptyString
  | String c value' =>
      if Ascii.eqb c dquote then
        String dquote (String dquote (escape_quotes value'))
      else String c (escape_quotes value')
  end.

(** [value.includes(c)] *)
Fixpoint contains (c : ascii) (value : string) : bool :=
  match value with
  | EmptyString => false
  | String c' value' => Ascii.eqb c' c || contains c value'
  end.

(** One cell of [exportToCSV].  A numeric cell is written as the number
    prints, which has neither a comma nor a quote and so is a value that
    this function returns as it is. *)
Definition export_field (value : string) : string :=
  if contains "," value || contains dquote value then
    String dquote (escape_quotes value ++ String dquote EmptyString)%string
  else value.

(** [cells.join(',')] *)
Fixpoint join_comma (cells : list string) : string :=
  match cells with
  | [] => EmptyString
  | [cell] => cell
  | cell :: rest => (cell ++ String "," (join_comma rest))%string
  end.

Definition export_row (values : list string) : string :=
  join_comma (map export_field values).

(** ** Vocabulary of the statements *)

(** The comparator [(a, b) => key(b) - key(a)] and the order it sorts
    into. *)
Definition desc {A : Type} (key : A -> Q) (a b : A) : Q := (key b - key a)%Q.

Definition ge_key {A : Type} (key : A -> Q) (a b : A) : Prop :=
  (key b <= key a)%Q.

(** All values of a dictionary of arrays, in the order of its keys. *)
Definition flat {V : Type} (d : list (string * list V)) : list V :=
  concat (map snd d).

Definition with_key (key : StoreData -> string) (r : string)
  (l : list StoreData) : list StoreData :=
  filter (fun s => String.eqb (key s) r) l.

(** The dictionary [d] holds, under each key, the stores of [p] with that
    key in their order in [p], and no empty group. *)
Definition represents (key : StoreData -> string)
  (d : list (string * list StoreData)) (p : list StoreData) : Prop :=
  forall r, lookup r d
            = match with_key key r p with [] => None | g => Some g end.

(** No store has a region that names a member of [Object.prototype]: the
    condition under which [groupStoresByRegion] returns, and under which a
    dictionary keyed by the regions of the stores holds what the object of
    the code holds. *)
Definition plain_regions (stores : list StoreData) : Prop :=
  forall s, In s stores -> inherited (fieldSalesRegio s) = false.

(** A selection is sound for its candidates when it repeats no record and
    holds candidates only. *)
Definition sound (stores selected : list StoreData) : Prop :=
  NoDup selected /\ incl selected stores.

(** [pool_ok stores sel pool]: the selection so far and the records still
    available are disjoint, without repetition, and all candidates. *)
Definition pool_ok (stores sel pool : list StoreData) : Prop :=
  NoDup (sel ++ pool) /\ incl (sel ++ pool) stores.

(** A record is the best of its region when it is a candidate and no
    candidate of the same region has a larger revenue. *)
Definition best_in_region (stores : list StoreData) (s : StoreData) : Prop :=
  In s stores
  /\ forall t, In t stores -> fieldSalesRegio t = fieldSalesRegio s ->
               (prodSelect t <= prodSelect s)%Q.

(** What may follow a closing quote in an exported row: the end of the
    line or a comma, never another quote. *)
Definition no_quote_ahead (tail : string) : Prop :=
  match tail with
  | EmptyString => True
  | String c _ => c <> dquote
  end.

(** * Properties *)

(** ** Arrays: [slice] and [sort] *)

Section ArrayFacts.
Context {A : Type}.
Implicit Types (l : list A) (cmp : A -> A -> Q).

Lemma slice_split l s e :
  exists pre post, l = pre ++ slice l s e ++ post.
Proof.
  unfold slice.
  set (k := Z.to_nat _). set (c := Z.to_nat _).
  exists (firstn c l), (skipn k (skipn c l)).
  now rewrite !firstn_skipn.
Qed.

Lemma slice_nil s e : slice (@nil A) s e = [].
Proof. unfold slice. now rewrite skipn_nil, firstn_nil. Qed.

Lemma slice_incl l s e : incl (slice l s e) l.
Proof.
  destruct (slice_split l s e) as (pre & post & E).
  intros x Hx. rewrite E. apply in_or_app. right.
  apply in_or_app. now left.
Qed.

Lemma slice_NoDup l s e : NoDup l -> NoDup (slice l s e).
Proof.
  destruct (slice_split l s e) as (pre & post & E).
  intros H. rewrite E in H.
  apply NoDup_app_remove_l in H. now apply NoDup_app_remove_r in H.
Qed.

Lemma slice_from_0 l e :
  (0 <= e)%Z -> slice l 0 e = firstn (Z.to_nat e) l.
Proof.
  intros He. unfold slice. simpl.
  destruct (e <? 0)%Z eqn:E; [apply Z.ltb_lt in E; lia |].
  replace (Z.min 0 (Z.of_nat (length l))) with 0%Z by lia.
  rewrite Z.sub_0_r. simpl.
  destruct (Z.min_spec e (Z.of_nat (length l))) as [[Hlt ->] | [Hge ->]].
  - reflexivity.
  - rewrite Nat2Z.id. rewrite firstn_all.
    symmetry. apply firstn_all2. lia.
Qed.

Lemma slice_from_0_length l e :
  (0 <= e)%Z -> (Z.of_nat (length (slice l 0 e)) <= e)%Z.
Proof.
  intros He. rewrite slice_from_0 by assumption.
  rewrite length_firstn. lia.
Qed.

Lemma slice_all l e :
  (Z.of_nat (length l) <= e)%Z -> slice l 0 e = l.
Proof.
  intros He. rewrite slice_from_0 by lia. apply firstn_all2. lia.
Qed.

Lemma insert_perm cmp x l : Permutation (insert cmp x l) (x :: l).
Proof.
  induction l as [| y l IH]; simpl.
  - reflexivity.
  - destruct (Qlt_bool (cmp y x) 0).
    + rewrite IH. apply perm_swap.
    + reflexivity.
Qed.

Lemma sort_perm cmp l : Permutation (sort cmp l) l.
Proof.
  induction l as [| x l IH]; simpl.
  - reflexivity.
  - rewrite insert_perm. now constructor.
Qed.

Lemma sort_length cmp l : length (sort cmp l) = length l.
Proof. apply Permutation_length, sort_perm. Qed.

Lemma sort_In cmp l x : In x (sort cmp l) <-> In x l.
Proof.
  split; apply Permutation_in; [| symmetry]; apply sort_perm.
Qed.

Lemma sort_NoDup cmp l : NoDup l -> NoDup (sort cmp l).
Proof. apply Permutation_NoDup. symmetry. apply sort_perm. Qed.

(** Sorting by a key, descending or ascending. *)
Section Keyed.
Variable key : A -> Q.


Lemma insert_desc_sorted x l :
  Sorted (ge_key key) l -> Sorted (ge_key key) (insert (desc key) x l).
Proof.
  induction 1 as [| y l Hs IH Hhd]; simpl.
  - repeat constructor.
  - unfold Qlt_bool, desc at 1.
    destruct (Qle_bool 0 (key x - key y)) eqn:E; simpl.
    + apply Qle_bool_iff in E.
      constructor; [now constructor |].
      constructor. unfold ge_key. lra.
    + assert (Hlt : ~ (0 <= key x - key y)%Q)
        by (intros H; apply Qle_bool_iff in H; congruence).
      constructor; [exact IH |].
      destruct l as [| z l]; simpl.
      * constructor. unfold ge_key. lra.
      * unfold Qlt_bool, desc.
        destruct (Qle_bool 0 (key x - key z)).
        -- simpl. constructor. unfold ge_key. lra.
        -- simpl. constructor. now inversion Hhd.
Qed.

Lemma sort_desc_sorted l : Sorted (ge_key key) (sort (desc key) l).
Proof.
  induction l as [| x l IH]; simpl.
  - constructor.
  - now apply insert_desc_sorted.
Qed.

Lemma ge_key_trans : Relations_1.Transitive (ge_key key).
Proof. intros a b c. unfold ge_key. lra. Qed.

Lemma sort_desc_strongly_sorted l :
  StronglySorted (ge_key key) (sort (desc key) l).
Proof.
  apply Sorted_StronglySorted; [exact ge_key_trans |].
  apply sort_desc_sorted.
Qed.
End Keyed.
End ArrayFacts.

Lemma strongly_sorted_app {A : Type} (R : A -> A -> Prop) (l1 l2 : list A) :
  StronglySorted R (l1 ++ l2) ->
  StronglySorted R l1 /\ forall a b, In a l1 -> In b l2 -> R a b.
Proof.
  induction l1 as [| x l1 IH]; simpl; intros H.
  - split; [constructor | contradiction].
  - apply StronglySorted_inv in H. destruct H as [Hs Hall].
    destruct (IH Hs) as [Hs1 Hcross].
    rewrite Forall_forall in Hall.
    split.
    + constructor; [exact Hs1 |].
      rewrite Forall_forall. intros y Hy. apply Hall, in_or_app. now left.
    + intros a b [<- | Ha] Hb.
      * apply Hall, in_or_app. now right.
      * now apply Hcross.
Qed.

(** ** Revenue focus *)

(** C6: for [0 < k < |stores|], revenue focus returns exactly [k] records,
    ordered by revenue descending, and every record it leaves out has a
    revenue no larger than any record it returns: the selection is a
    top-[k] of the candidates. *)
Theorem revenue_focus_top_k (stores : list StoreData) (k : Z) :
  (0 < k < len stores)%Z ->
  let selected := fst (revenueMaximizationSelection stores (mkTarget k)) in
  len selected = k /\
  StronglySorted (fun a b => (prodSelect b <= prodSelect a)%Q) selected /\
  exists excluded,
    Permutation stores (selected ++ excluded) /\
    forall s u, In s selected -> In u excluded ->
                (prodSelect u <= prodSelect s)%Q.
Proof.
  intros Hk. unfold revenueMaximizationSelection. cbn [fst total].
  set (sorted := sort by_revenue_desc stores).
  assert (Hlen : length sorted = length stores) by apply sort_length.
  unfold len in *.
  rewrite slice_from_0 by lia.
  assert (Hss : StronglySorted (ge_key prodSelect) sorted)
    by apply sort_desc_strongly_sorted.
  rewrite <- (firstn_skipn (Z.to_nat k) sorted) in Hss.
  apply strongly_sorted_app in Hss. destruct Hss as [Hfirst Hcross].
  split; [| split].
  - rewrite length_firstn. lia.
  - exact Hfirst.
  - exists (skipn (Z.to_nat k) sorted). split.
    + rewrite firstn_skipn. symmetry. apply sort_perm.
    + intros s u Hs Hu. exact (Hcross s u Hs Hu).
Qed.

Lemma revenue_focus_top_k_witness :
  let stores :=
    [sample 0 "Alfa 1" "North" 100; sample 1 "Alfa 2" "South" 300] in
  let selected := fst (revenueMaximizationSelection stores (mkTarget 1)) in
  (0 < 1 < len stores)%Z /\
  len selected = 1%Z /\
  StronglySorted (fun a b => (prodSelect b <= prodSelect a)%Q) selected.
Proof.
  intros stores selected.
  assert (H : (0 < 1 < len stores)%Z) by (unfold len; simpl; lia).
  split; [exact H |].
  destruct (revenue_focus_top_k stores 1 H) as (Hlen & Hsorted & _).
  split; [exact Hlen | exact Hsorted].
Defined.

(** ** The scenario of ten stores *)

(** C8, as the code behaves: on the ten stores, revenue focus with target 3
    returns the revenues 550, 500, 450 in that order, and geographic
    coverage with target 2 returns the best store of each region in the
    order in which the regions first occur in the input: North (500), then
    South (550). *)
Theorem scenario_ten_stores :
  revenues_of (fst (revenueMaximizationSelection ten_stores (mkTarget 3)))
  = [("South"%string, 550%Q); ("North"%string, 500%Q); ("South"%string, 450%Q)]
  /\ revenues_of (fst (geographicDistributionSelection ten_stores (mkTarget 2)))
     = [("North"%string, 500%Q); ("South"%string, 550%Q)].
Proof. split; vm_compute; reflexivity. Qed.

(** C8, as stated, fails: geographic coverage does not return South before
    North on this input. *)
Lemma scenario_geographic_order_refuted :
  revenues_of (fst (geographicDistributionSelection ten_stores (mkTarget 2)))
  <> [("South"%string, 550%Q); ("North"%string, 500%Q)].
Proof. vm_compute. discriminate. Qed.

(** The order South, North does come out when geographic coverage runs on
    the array that an earlier revenue-focus call has sorted in place. *)
Remark scenario_geographic_after_revenue_focus :
  let sorted := snd (revenueMaximizationSelection ten_stores (mkTarget 3)) in
  revenues_of (fst (geographicDistributionSelection sorted (mkTarget 2)))
  = [("South"%string, 550%Q); ("North"%string, 500%Q)].
Proof. vm_compute. reflexivity. Qed.

(** ** The dispatcher *)

(** C2: whatever the strategy identifier and the target, a call whose
    working set is empty returns the zeroed result. *)
Theorem select_empty_working_set `{Rounding} (stores : list StoreData)
  (strategy : SelectionStrategy) (targetConfig : TargetConfig)
  (filteredStores : option (list StoreData)) :
  working stores filteredStores = [] ->
  fst (selectStores stores strategy targetConfig filteredStores)
  = {| selectedStores := [];
       totalRevenue := 0%Q;
       averageRevenue := Num 0%Q;
       regionCoverage := Num 0%Q;
       performanceDistribution := {| high := 0; medium := 0; low := 0 |};
       statistics :=
         {| totalStores := 0; uniqueRegions := 0; uniqueRetailers := 0;
            revenuePerRegion := [] |} |}.
Proof.
  intros Hw. unfold selectStores. rewrite Hw. reflexivity.
Qed.

Lemma select_empty_working_set_witness :
  working [] None = []
  /\ fst (selectStores [] "portfolio-balance" (mkTarget 10) None)
     = createEmptyResult.
Proof.
  split; [reflexivity |].
  exact (select_empty_working_set [] "portfolio-balance" (mkTarget 10) None
           eq_refl).
Defined.

(** C3, as the code behaves: the working set is [filteredStores] whenever
    that argument is given, empty or not, and [stores] only when it is
    absent.  A call with [filteredStores] given returns what a call on
    [filteredStores] alone returns, and a call with [filteredStores = []]
    returns the zeroed result. *)
Theorem select_working_set `{Rounding} (stores filtered : list StoreData)
  (strategy : SelectionStrategy) (targetConfig : TargetConfig) :
  working stores (Some filtered) = filtered
  /\ working stores None = stores
  /\ fst (selectStores stores strategy targetConfig (Some filtered))
     = fst (selectStores filtered strategy targetConfig None)
  /\ fst (selectStores stores strategy targetConfig (Some []))
     = createEmptyResult.
Proof.
  repeat split.
  unfold selectStores. cbn [working].
  destruct (length filtered =? 0); [reflexivity |].
  destruct (dispatch strategy filtered targetConfig). reflexivity.
Qed.

(** C3, as stated, fails: with one store in [stores] and
    [filteredStores = []], nothing is selected, while selecting from
    [stores] returns that store. *)
Lemma select_empty_filter_refuted :
  let store := sample 0 "Alfa 1" "North" 100 in
  selectedStores
    (fst (selectStores [store] "revenue-focus" (mkTarget 1) (Some [])))
  = []
  /\ selectedStores
       (fst (selectStores [store] "revenue-focus" (mkTarget 1) None))
     = [store].
Proof. split; vm_compute; reflexivity. Qed.

(** ** Analytics on an empty selection *)

Lemma generateResult_empty_average `{Rounding} (allStores : list StoreData) :
  averageRevenue (generateResult [] allStores) = NaN.
Proof. reflexivity. Qed.

(** A single store makes the growth pool empty, for every rounding: both
    slice bounds are below the length 1. *)
Lemma growth_single_store `{Rounding} (store : StoreData) (target : Z) :
  fst (growthPotentialSelection [store] (mkTarget target)) = [].
Proof.
  unfold growthPotentialSelection.
  cbn [fst total sort fold_right insert length].
  assert (H2 : floor_mul 1 (2 # 10) = 0).
  { pose proof (floor_mul_lt 1 (2 # 10)) as Hlt.
    assert (floor_mul 1 (2 # 10) < 1) by (apply Hlt; [lia | reflexivity]).
    lia. }
  assert (H7 : floor_mul 1 (7 # 10) = 0).
  { pose proof (floor_mul_lt 1 (7 # 10)) as Hlt.
    assert (floor_mul 1 (7 # 10) < 1) by (apply Hlt; [lia | reflexivity]).
    lia. }
  rewrite H2, H7. cbn.
  destruct (0 <? target)%Z; cbn; apply slice_nil.
Qed.

(** C4 at its failing input: growth opportunities on a single store with
    target 1 selects nothing, and the average revenue of the result is
    [0 / 0], that is [NaN], not 0. *)
Theorem average_revenue_single_store_growth :
  let r := fst (selectStores [sample 0 "Alfa 1" "North" 100]
                  "growth-opportunities" (mkTarget 1) None) in
  selectedStores r = []
  /\ averageRevenue r = NaN
  /\ averageRevenue r <> Num 0%Q.
Proof. vm_compute. repeat split. discriminate. Qed.

(** ** The caller's arrays *)

(** C9 at its failing input: revenue focus sorts the caller's array in
    place, so after the call [stores] holds its two records in the other
    order. *)
Theorem revenue_focus_reorders_input :
  let a := sample 0 "Alfa 1" "North" 100 in
  let b := sample 1 "Alfa 2" "North" 200 in
  arr_stores (snd (selectStores [a; b] "revenue-focus" (mkTarget 1) None))
  = [b; a].
Proof. vm_compute. reflexivity. Qed.

(** Growth opportunities does the same with an ascending sort, here on the
    array passed as [filteredStores]. *)
Remark growth_reorders_filtered :
  let a := sample 0 "Alfa 1" "North" 100 in
  let b := sample 1 "Alfa 2" "North" 200 in
  arr_filteredStores
    (snd (selectStores [a; b] "growth-opportunities" (mkTarget 1)
            (Some [b; a])))
  = Some [a; b].
Proof. vm_compute. reflexivity. Qed.

(** The other four strategies return with the array as they found it. *)
Remark strategies_keeping_input `{Rounding} (stores : list StoreData)
  (targetConfig : TargetConfig) :
  snd (geographicDistributionSelection stores targetConfig) = stores
  /\ snd (portfolioBalanceSelection stores targetConfig) = stores
  /\ snd (marketPenetrationSelection stores targetConfig) = stores
  /\ snd (demographicTargetingSelection stores targetConfig) = stores.
Proof. repeat split. Qed.

(** ** Performance tiers *)

Lemma strongly_sorted_nth {A : Type} (R : A -> A -> Prop) (l : list A) :
  StronglySorted R l ->
  forall i j a b, i < j ->
    nth_error l i = Some a -> nth_error l j = Some b -> R a b.
Proof.
  induction 1 as [| x l Hs IH Hall]; intros i j a b Hij Hi Hj.
  - destruct i; discriminate.
  - destruct j as [| j]; [lia |].
    destruct i as [| i]; simpl in *.
    + injection Hi as <-. rewrite Forall_forall in Hall.
      apply Hall. eapply nth_error_In; eauto.
    + apply (IH i j); auto. lia.
Qed.

Lemma three_way_count {A : Type} (p q : A -> bool) (l : list A) :
  (forall x, In x l -> p x = true -> q x = true) ->
  length (filter p l)
  + length (filter (fun x => q x && negb (p x)) l)
  + length (filter (fun x => negb (q x)) l)
  = length l.
Proof.
  induction l as [| x l IH]; intros Hpq; [reflexivity |].
  assert (IH' := IH (fun y Hy => Hpq y (or_intror Hy))).
  specialize (Hpq x (or_introl eq_refl)).
  simpl. destruct (p x) eqn:Ep, (q x) eqn:Eq; simpl;
    try discriminate (Hpq eq_refl); lia.
Qed.

Lemma tiers_of_thresholds (h m : Q) (l : list StoreData) :
  (m <= h)%Q ->
  length (filter (fun s => at_least (prodSelect s) (Some h)) l)
  + length (filter (fun s => at_least (prodSelect s) (Some m)
                             && below (prodSelect s) (Some h)) l)
  + length (filter (fun s => below (prodSelect s) (Some m)) l)
  = length l.
Proof.
  intros Hmh.
  apply (three_way_count (fun s => Qle_bool h (prodSelect s))
                         (fun s => Qle_bool m (prodSelect s))).
  intros s _ Hs. apply Qle_bool_iff in Hs. apply Qle_bool_iff. lra.
Qed.

Lemma generateResult_tiers `{Rounding} (selected allStores : list StoreData) :
  let r := generateResult selected allStores in
  high (performanceDistribution r) + medium (performanceDistribution r)
  + low (performanceDistribution r) = length selected.
Proof.
  unfold generateResult. cbn [performanceDistribution high medium low].
  set (sorted := sort _ (map prodSelect selected)).
  assert (Hlen : length sorted = length selected).
  { unfold sorted. now rewrite sort_length, length_map. }
  rewrite Hlen.
  destruct selected as [| s0 rest] eqn:Esel; [reflexivity |].
  rewrite <- Esel in *.
  assert (Hpos : 0 < length selected) by (rewrite Esel; simpl; lia).
  set (i33 := floor_mul (length selected) (33 # 100)).
  set (i66 := floor_mul (length selected) (66 # 100)).
  assert (H36 : i33 <= i66) by (apply floor_mul_mono; discriminate).
  assert (H6 : i66 < length sorted).
  { rewrite Hlen. apply floor_mul_lt; [exact Hpos | reflexivity]. }
  destruct (nth_error sorted i33) as [h |] eqn:Eh;
    [| apply nth_error_None in Eh; lia].
  destruct (nth_error sorted i66) as [m |] eqn:Em;
    [| apply nth_error_None in Em; lia].
  apply tiers_of_thresholds.
  assert (Hss : StronglySorted (ge_key (fun x : Q => x)) sorted)
    by apply (sort_desc_strongly_sorted (fun x : Q => x)).
  destruct (Nat.eq_dec i33 i66) as [E | NE].
  - rewrite E in Eh. rewrite Eh in Em. injection Em as ->. lra.
  - apply (strongly_sorted_nth _ _ Hss i33 i66 h m); auto. lia.
Qed.

(** C10: in every result of [selectStores] the three tier counts add up to
    [totalStores], which is the number of selected records. *)
Theorem tiers_partition_selection `{Rounding} (stores : list StoreData)
  (strategy : SelectionStrategy) (targetConfig : TargetConfig)
  (filteredStores : option (list StoreData)) :
  let r := fst (selectStores stores strategy targetConfig filteredStores) in
  high (performanceDistribution r) + medium (performanceDistribution r)
  + low (performanceDistribution r) = totalStores (statistics r)
  /\ totalStores (statistics r) = length (selectedStores r).
Proof.
  unfold selectStores.
  destruct (length (working stores filteredStores) =? 0);
    [split; reflexivity |].
  destruct (dispatch strategy (working stores filteredStores) targetConfig)
    as [selected ws].
  cbn [fst]. split; [| reflexivity].
  apply generateResult_tiers.
Qed.

(** ** The histogram on equal revenues *)

Lemma fold_Qmin_const (r : Q) (l : list Q) (a : Q) :
  (a == r)%Q -> (forall x, In x l -> (x == r)%Q) ->
  (fold_left Qmin l a == r)%Q.
Proof.
  revert a. induction l as [| y l IH]; simpl; intros a Ha Hall.
  - exact Ha.
  - apply IH; [| auto].
    rewrite Ha, (Hall y (or_introl eq_refl)). apply Q.min_id.
Qed.

Lemma fold_Qmax_const (r : Q) (l : list Q) (a : Q) :
  (a == r)%Q -> (forall x, In x l -> (x == r)%Q) ->
  (fold_left Qmax l a == r)%Q.
Proof.
  revert a. induction l as [| y l IH]; simpl; intros a Ha Hall.
  - exact Ha.
  - apply IH; [| auto].
    rewrite Ha, (Hall y (or_introl eq_refl)). apply Q.max_id.
Qed.

Lemma filter_const {A : Type} (p : A -> bool) (b : bool) (l : list A) :
  (forall x, In x l -> p x = b) ->
  filter p l = if b then l else [].
Proof.
  induction l as [| x l IH]; intros Hp; simpl.
  - now destruct b.
  - rewrite (Hp x (or_introl eq_refl)).
    rewrite IH by (intros y Hy; apply Hp; now right).
    now destruct b.
Qed.

Lemma map_last_bin {A : Type} (X Y : A) (n : nat) :
  map (fun i => if i =? n then X else Y) (seq 0 (S n)) = repeat Y n ++ [X].
Proof.
  rewrite seq_S, map_app. simpl. rewrite Nat.eqb_refl. f_equal.
  assert (Hgen : forall k, k <= n ->
            map (fun i => if i =? n then X else Y) (seq 0 k) = repeat Y k).
  { induction k as [| k IH]; intros Hk; [reflexivity |].
    rewrite seq_S, map_app, IH by lia. simpl.
    destruct (Nat.eqb_spec k n); [lia |].
    clear. induction k; simpl; congruence. }
  now apply Hgen.
Qed.

(** C5, as the code behaves: on a non-empty list of equal revenues and
    [bins >= 1], the histogram has [bins] bins, every bin but the last is
    empty and the last bin (index [bins - 1]) holds all the records, so each
    record is in exactly one bin; the counts agree with the bins. *)
Theorem histogram_equal_revenues (stores : list StoreData) (bins : nat) :
  stores <> [] ->
  (forall s t, In s stores -> In t stores ->
               (prodSelect s == prodSelect t)%Q) ->
  1 <= bins ->
  map bin_stores (generateHistogram stores bins)
  = repeat [] (bins - 1) ++ [stores]
  /\ map count (generateHistogram stores bins)
     = repeat 0 (bins - 1) ++ [length stores].
Proof.
  intros Hne Heq Hbins.
  destruct stores as [| s0 rest] eqn:Est; [congruence |].
  rewrite <- Est in *. clear Hne.
  assert (Hin0 : In s0 stores) by (rewrite Est; now left).
  set (r := prodSelect s0).
  assert (Hall : forall x, In x (map prodSelect rest) -> (x == r)%Q).
  { intros x Hx. apply in_map_iff in Hx. destruct Hx as (t & <- & Ht).
    apply Heq; [| exact Hin0]. rewrite Est. now right. }
  unfold generateHistogram.
  replace (map prodSelect stores) with (r :: map prodSelect rest)
    by (rewrite Est; reflexivity).
  set (mn := fold_left Qmin _ r). set (mx := fold_left Qmax _ r).
  assert (Hmn : (mn == r)%Q)
    by (apply fold_Qmin_const; [reflexivity | exact Hall]).
  assert (Hmx : (mx == r)%Q)
    by (apply fold_Qmax_const; [reflexivity | exact Hall]).
  set (size := ((mx - mn) / Qnat bins)%Q).
  assert (Hsize : (size == 0)%Q).
  { unfold size. rewrite Hmn, Hmx. unfold Qdiv.
    setoid_replace (r - r)%Q with 0%Q by ring. apply Qmult_0_l. }
  assert (Hbound : forall i, (mn + Qnat i * size == r)%Q).
  { intros i. rewrite Hsize, Hmn. ring. }
  assert (Hfilter : forall i,
    filter (fun store =>
              Qle_bool (mn + Qnat i * size) (prodSelect store)
              && (if i =? bins - 1
                  then Qle_bool (prodSelect store) (mn + Qnat (i + 1) * size)
                  else Qlt_bool (prodSelect store) (mn + Qnat (i + 1) * size)))
      stores
    = if i =? bins - 1 then stores else []).
  { intros i. apply filter_const. intros s Hs.
    assert (Hv : (prodSelect s == r)%Q) by (apply Heq; assumption).
    assert (Hle : forall x y, (x == r)%Q -> (y == r)%Q -> Qle_bool x y = true)
      by (intros x y Hx Hy; apply Qle_bool_iff; lra).
    unfold Qlt_bool.
    rewrite !Hle by first [apply Hbound | exact Hv].
    now destruct (i =? bins - 1). }
  rewrite !map_map. cbn [bin_stores count].
  replace bins with (S (bins - 1)) at 1 3 by lia.
  split.
  - erewrite map_ext; [apply map_last_bin |]. intros i. apply Hfilter.
  - erewrite map_ext.
    + apply (map_last_bin (length stores) 0).
    + intros i. cbv beta. rewrite Hfilter. now destruct (i =? bins - 1).
Qed.

Lemma histogram_equal_revenues_witness :
  let stores :=
    [sample 0 "Alfa 1" "North" 100; sample 1 "Alfa 2" "South" 100] in
  map bin_stores (generateHistogram stores 3) = [[]; []; stores]
  /\ map count (generateHistogram stores 3) = [0; 0; 2].
Proof.
  intros stores.
  apply (histogram_equal_revenues stores 3).
  - discriminate.
  - intros s t [<- | [<- | []]] [<- | [<- | []]]; reflexivity.
  - lia.
Defined.

(** C5, as stated, fails: with one record and eight bins, bin 0 is empty
    and the record is in bin 7. *)
Lemma histogram_first_bin_refuted :
  map count (generateHistogram [sample 0 "Alfa 1" "North" 100] 8)
  = [0; 0; 0; 0; 0; 0; 0; 1].
Proof. vm_compute. reflexivity. Qed.

(** ** Sets of strings and dictionaries *)

Lemma has_In (s : list string) (x : string) : has s x = true <-> In x s.
Proof.
  unfold has. rewrite existsb_exists. split.
  - intros (y & Hy & E). apply String.eqb_eq in E. now subst.
  - intros Hx. exists x. split; [exact Hx | apply String.eqb_refl].
Qed.

Lemma distinct_from_In (seen l : list string) (x : string) :
  In x (distinct_from seen l) <-> In x l /\ ~ In x seen.
Proof.
  revert seen. induction l as [| y l IH]; intros seen; simpl.
  - tauto.
  - destruct (existsb (String.eqb y) seen) eqn:E.
    + apply has_In in E. rewrite IH. split.
      * tauto.
      * intros [[-> | Hx] Hn]; tauto.
    + assert (Hy : ~ In y seen)
        by (intros Hy; apply has_In in Hy; unfold has in Hy; congruence).
      simpl. rewrite IH. simpl. split.
      * intros [-> | [Hx Hn]]; [tauto |]. split; [tauto |]. tauto.
      * intros [[-> | Hx] Hn]; [tauto |].
        destruct (string_dec y x) as [-> | NE]; [tauto |]. right. split; tauto.
Qed.

Lemma distinct_from_NoDup (seen l : list string) :
  NoDup (distinct_from seen l).
Proof.
  revert seen. induction l as [| y l IH]; intros seen; simpl.
  - constructor.
  - destruct (existsb (String.eqb y) seen); [apply IH |].
    constructor; [| apply IH].
    rewrite distinct_from_In. simpl. tauto.
Qed.

Lemma distinct_In (l : list string) (x : string) :
  In x (distinct l) <-> In x l.
Proof. unfold distinct. rewrite distinct_from_In. simpl. tauto. Qed.

Lemma distinct_NoDup (l : list string) : NoDup (distinct l).
Proof. apply distinct_from_NoDup. Qed.


Section DictFacts.
Context {V : Type}.
Implicit Types (d : list (string * V)) (k r : string).

Lemma lookup_assign d k r v :
  lookup r (assign k v d) = if String.eqb r k then Some v else lookup r d.
Proof.
  induction d as [| [k' v'] d IH]; simpl.
  - reflexivity.
  - destruct (String.eqb_spec k k') as [<- | NE]; simpl.
    + now destruct (String.eqb r k).
    + rewrite IH. destruct (String.eqb_spec r k') as [-> | NE'].
      * destruct (String.eqb_spec k' k); [congruence | reflexivity].
      * reflexivity.
Qed.

Lemma lookup_In d k v : lookup k d = Some v -> In (k, v) d.
Proof.
  induction d as [| [k' v'] d IH]; simpl; [discriminate |].
  destruct (String.eqb_spec k k') as [<- | NE].
  - intros [= ->]. now left.
  - intros H. right. now apply IH.
Qed.
End DictFacts.

Lemma filter_split_perm {A : Type} (f : A -> bool) (l : list A) :
  Permutation (filter f l ++ filter (fun x => negb (f x)) l) l.
Proof.
  induction l as [| x l IH]; simpl; [reflexivity |].
  destruct (f x); simpl.
  - now constructor.
  - symmetry. apply Permutation_cons_app. now symmetry.
Qed.

(** [Object.entries] lists every own property once. *)
Lemma entries_perm {V : Type} (d : list (string * V)) :
  Permutation (entries d) d.
Proof.
  unfold entries.
  rewrite (sort_perm by_index (filter (fun e => is_index (fst e)) d)).
  apply filter_split_perm.
Qed.

Lemma entries_In {V : Type} (d : list (string * V)) (e : string * V) :
  In e (entries d) <-> In e d.
Proof.
  split; apply Permutation_in; [| symmetry]; apply entries_perm.
Qed.

Lemma entries_flat {V : Type} (d : list (string * list V)) :
  Permutation (flat (entries d)) (flat d).
Proof.
  unfold flat. rewrite <- !flat_map_concat_map.
  apply Permutation_flat_map, entries_perm.
Qed.

Lemma map_fst_filter {V : Type} (f : string -> bool) (d : list (string * V)) :
  map fst (filter (fun e => f (fst e)) d) = filter f (map fst d).
Proof.
  induction d as [| [k v] d IH]; simpl; [reflexivity |].
  destruct (f k); simpl; now rewrite IH.
Qed.

Lemma insert_ext {A : Type} (c1 c2 : A -> A -> Q) (x : A) (l : list A) :
  (forall a b, Qlt_bool (c1 a b) 0 = Qlt_bool (c2 a b) 0) ->
  insert c1 x l = insert c2 x l.
Proof.
  intros Hc. induction l as [| y l IH]; simpl; [reflexivity |].
  rewrite Hc, IH. reflexivity.
Qed.

(** [sort] reads its comparator through the test [cmp a b < 0] only. *)
Lemma sort_ext {A : Type} (c1 c2 : A -> A -> Q) (l : list A) :
  (forall a b, Qlt_bool (c1 a b) 0 = Qlt_bool (c2 a b) 0) ->
  sort c1 l = sort c2 l.
Proof.
  intros Hc. induction l as [| x l IH]; simpl; [reflexivity |].
  rewrite IH. now apply insert_ext.
Qed.

Lemma strongly_sorted_map {A B : Type} (R : A -> A -> Prop)
  (R' : B -> B -> Prop) (f : A -> B) (l : list A) :
  (forall a b, R a b -> R' (f a) (f b)) ->
  StronglySorted R l -> StronglySorted R' (map f l).
Proof.
  intros HR. induction 1 as [| x l Hs IH Hall]; simpl; constructor.
  - exact IH.
  - rewrite Forall_forall in *. intros y Hy.
    apply in_map_iff in Hy. destruct Hy as (z & <- & Hz). now apply HR, Hall.
Qed.

Lemma by_index_sorted {V : Type} (l : list (string * V)) :
  StronglySorted (fun a b => (index_value a <= index_value b)%Q)
    (map fst (sort by_index l)).
Proof.
  rewrite (sort_ext by_index (desc (fun e => (- index_value (fst e))%Q))).
  - apply (strongly_sorted_map
             (ge_key (fun e : string * V => (- index_value (fst e))%Q))).
    + intros a b. unfold ge_key. lra.
    + apply sort_desc_strongly_sorted.
  - intros a b. unfold by_index, desc, Qlt_bool. f_equal.
    apply eq_true_iff_eq. rewrite !Qle_bool_iff. split; lra.
Qed.

(** The order of [Object.keys] and [Object.entries]: the array indices in
    ascending order, then the other keys in the order of their creation. *)
Lemma entries_keys {V : Type} (d : list (string * V)) :
  exists indices,
    map fst (entries d)
    = indices ++ filter (fun k => negb (is_index k)) (map fst d)
    /\ Forall (fun k => is_index k = true) indices
    /\ StronglySorted (fun a b => (index_value a <= index_value b)%Q) indices.
Proof.
  exists (map fst (sort by_index (filter (fun e => is_index (fst e)) d))).
  split; [| split].
  - unfold entries. rewrite map_app. f_equal.
    apply (map_fst_filter (fun k => negb (is_index k))).
  - rewrite Forall_forall. intros k Hk.
    apply in_map_iff in Hk. destruct Hk as (e & <- & He).
    apply (proj1 (sort_In _ _ _)) in He.
    apply filter_In in He. apply He.
  - apply by_index_sorted.
Qed.

Lemma entries_keys_perm {V : Type} (d : list (string * V)) :
  Permutation (map fst (entries d)) (map fst d).
Proof. apply Permutation_map, entries_perm. Qed.

Section FlatFacts.
Context {V : Type}.
Implicit Types (d : list (string * list V)) (k : string) (g : list V).

Lemma flat_assign_new d k g :
  lookup k d = None -> flat (assign k g d) = flat d ++ g.
Proof.
  unfold flat. induction d as [| [k' g'] d IH]; simpl.
  - intros _. now rewrite app_nil_r.
  - destruct (String.eqb k k'); [discriminate |].
    intros Hn. simpl. rewrite IH by assumption. now rewrite app_assoc.
Qed.

Lemma flat_assign_old d k g g' :
  lookup k d = Some g ->
  exists a b, flat d = a ++ g ++ b /\ flat (assign k g' d) = a ++ g' ++ b.
Proof.
  unfold flat. induction d as [| [k1 g1] d IH]; simpl; [discriminate |].
  destruct (String.eqb k k1).
  - intros [= ->]. exists [], (concat (map snd d)). now simpl.
  - intros Hl. destruct (IH Hl) as (a & b & E1 & E2).
    exists (g1 ++ a), b. simpl. rewrite E1, E2. now rewrite <- !app_assoc.
Qed.
End FlatFacts.

(** ** Grouping *)

Section Grouping.
Variable key : StoreData -> string.


Lemma with_key_app r l1 l2 :
  with_key key r (l1 ++ l2) = with_key key r l1 ++ with_key key r l2.
Proof. apply filter_app. Qed.

Lemma with_key_In r l s : In s (with_key key r l) <-> In s l /\ key s = r.
Proof.
  unfold with_key. rewrite filter_In.
  split; intros [H1 H2]; split; auto; now apply String.eqb_eq.
Qed.

Lemma group_push_represents d p x :
  represents key d p -> represents key (group_push key d x) (p ++ [x]).
Proof.
  intros Hd r. unfold group_push.
  rewrite with_key_app. unfold with_key at 2. simpl.
  pose proof (Hd (key x)) as Hx. pose proof (Hd r) as Hr.
  destruct (lookup (key x) d) as [g |] eqn:El;
    rewrite lookup_assign;
    destruct (String.eqb_spec r (key x)) as [-> | NE].
  - rewrite String.eqb_refl.
    destruct (with_key key (key x) p) as [| s t]; [discriminate |].
    injection Hx as ->. reflexivity.
  - destruct (String.eqb_spec (key x) r); [congruence |].
    now rewrite app_nil_r.
  - rewrite String.eqb_refl.
    destruct (with_key key (key x) p) as [| s t]; [reflexivity | discriminate].
  - destruct (String.eqb_spec (key x) r); [congruence |].
    now rewrite app_nil_r.
Qed.

Lemma fold_group_push_represents l d p :
  represents key d p ->
  represents key (fold_left (group_push key) l d) (p ++ l).
Proof.
  revert d p. induction l as [| x l IH]; intros d p Hd; simpl.
  - now rewrite app_nil_r.
  - replace (p ++ x :: l) with ((p ++ [x]) ++ l)
      by (now rewrite <- app_assoc).
    apply IH. now apply group_push_represents.
Qed.

Lemma group_by_represents l : represents key (group_by key l) l.
Proof.
  apply (fold_group_push_represents l [] []). intros r. reflexivity.
Qed.

Lemma lookup_group_by l r g :
  lookup r (group_by key l) = Some g -> g = with_key key r l /\ g <> [].
Proof.
  rewrite (group_by_represents l r).
  destruct (with_key key r l); [discriminate |].
  intros [= <-]. split; [reflexivity | discriminate].
Qed.

Lemma lookup_group_by_present l s :
  In s l ->
  exists g, lookup (key s) (group_by key l) = Some g /\ In s g.
Proof.
  intros Hs. rewrite (group_by_represents l (key s)).
  assert (Hin : In s (with_key key (key s) l)) by (now apply with_key_In).
  destruct (with_key key (key s) l) as [| t g]; [contradiction |].
  now exists (t :: g).
Qed.

Lemma group_push_flat d x :
  Permutation (flat (group_push key d x)) (x :: flat d).
Proof.
  unfold group_push. destruct (lookup (key x) d) as [g |] eqn:El.
  - destruct (flat_assign_old d (key x) g (g ++ [x]) El)
      as (a & b & -> & ->).
    rewrite <- (app_assoc g [x] b). simpl.
    rewrite (app_assoc a g (x :: b)), (app_assoc a g b).
    symmetry. apply Permutation_middle.
  - rewrite flat_assign_new by assumption.
    rewrite Permutation_app_comm. reflexivity.
Qed.

Lemma fold_group_push_flat l d :
  Permutation (flat (fold_left (group_push key) l d)) (flat d ++ l).
Proof.
  revert d. induction l as [| x l IH]; intros d; simpl.
  - now rewrite app_nil_r.
  - rewrite IH, group_push_flat. simpl. apply Permutation_middle.
Qed.

Lemma group_by_flat l : Permutation (flat (group_by key l)) l.
Proof. apply (fold_group_push_flat l []). Qed.

(** The reducer on an object literal throws when it meets a key that the
    object inherits, and is the reducer on a dictionary otherwise. *)
Lemma reduce_object_plain l :
  forall acc p,
    represents key acc p ->
    (forall s, In s p -> inherited (key s) = false) ->
    reduce_object key l acc
    = if existsb (fun s => inherited (key s)) l then None
      else Some (fold_left (group_push key) l acc).
Proof.
  induction l as [| x l IH]; intros acc p Hacc Hp; simpl; [reflexivity |].
  assert (Hstep : inherited (key x) = false ->
            group_push_object key acc x = Some (group_push key acc x)).
  { intros Hx. unfold group_push_object, group_push, get.
    destruct (lookup (key x) acc); [reflexivity | now rewrite Hx]. }
  destruct (inherited (key x)) eqn:Hx; simpl.
  - unfold group_push_object, get.
    rewrite (Hacc (key x)).
    destruct (with_key key (key x) p) as [| s g] eqn:Eg.
    + now rewrite Hx.
    + assert (Hs : In s (with_key key (key x) p)) by (rewrite Eg; now left).
      apply with_key_In in Hs. destruct Hs as [Hs Hk].
      apply Hp in Hs. congruence.
  - rewrite (Hstep eq_refl).
    apply (IH _ (p ++ [x])).
    + now apply group_push_represents.
    + intros s Hs. apply in_app_or in Hs.
      destruct Hs as [Hs | [<- | []]]; [now apply Hp | exact Hx].
Qed.

Lemma group_by_object_plain l :
  group_by_object key l
  = if existsb (fun s => inherited (key s)) l then None
    else Some (group_by key l).
Proof.
  apply (reduce_object_plain l [] []).
  - intros r. reflexivity.
  - intros s [].
Qed.
End Grouping.

Lemma plain_regions_existsb (stores : list StoreData) :
  existsb (fun s => inherited (fieldSalesRegio s)) stores = false
  <-> plain_regions stores.
Proof.
  unfold plain_regions. split.
  - intros E s Hs.
    destruct (inherited (fieldSalesRegio s)) eqn:Hi; [| reflexivity].
    assert (Hex : existsb (fun s => inherited (fieldSalesRegio s)) stores
                  = true) by (apply existsb_exists; now exists s).
    congruence.
  - intros Hp.
    destruct (existsb (fun s => inherited (fieldSalesRegio s)) stores) eqn:E;
      [| reflexivity].
    apply existsb_exists in E. destruct E as (s & Hs & Hi).
    rewrite (Hp s Hs) in Hi. discriminate.
Qed.

(** On candidates none of whose regions the object inherits,
    [groupStoresByRegion] returns the dictionary of the groups. *)
Lemma groupStoresByRegion_returns (stores : list StoreData) :
  plain_regions stores ->
  groupStoresByRegion_object stores = Some (groupStoresByRegion stores).
Proof.
  intros Hp. unfold groupStoresByRegion_object.
  rewrite group_by_object_plain.
  now rewrite (proj2 (plain_regions_existsb stores) Hp).
Qed.

Lemma groupStoresByRegion_returned (stores : list StoreData)
  (d : list (string * list StoreData)) :
  groupStoresByRegion_object stores = Some d ->
  plain_regions stores /\ d = groupStoresByRegion stores.
Proof.
  unfold groupStoresByRegion_object. rewrite group_by_object_plain.
  destruct (existsb (fun s => inherited (fieldSalesRegio s)) stores) eqn:E;
    [discriminate |].
  intros [= <-]. split; [now apply plain_regions_existsb | reflexivity].
Qed.

(** ** Geographic distribution *)

Lemma reduce1_better_In (s : StoreData) (rest : list StoreData) :
  In (reduce1 better s rest) (s :: rest).
Proof.
  unfold reduce1. revert s.
  induction rest as [| y rest IH]; intros s; simpl.
  - now left.
  - destruct (IH (better s y)) as [E | Hin].
    + rewrite <- E. unfold better.
      destruct (Qlt_bool (prodSelect s) (prodSelect y)); auto.
    + auto.
Qed.

Lemma best_of_In (g : list StoreData) (b : StoreData) :
  best_of g = Some b -> In b g.
Proof.
  destruct g as [| s rest]; simpl; [discriminate |].
  intros [= <-]. apply reduce1_better_In.
Qed.

Lemma includes_In (arr : list StoreData) (s : StoreData) :
  In s arr -> includes arr s = true.
Proof.
  intros Hs. unfold includes. apply existsb_exists.
  exists s. split; [exact Hs | apply Nat.eqb_refl].
Qed.

Lemma not_included_disjoint (sel l : list StoreData) :
  forall x, In x sel ->
            ~ In x (filter (fun store => negb (includes sel store)) l).
Proof.
  intros x Hx Hf. apply filter_In in Hf. destruct Hf as [_ Hf].
  rewrite (includes_In sel x Hx) in Hf. discriminate.
Qed.

Section FirstPass.
Variable stores : list StoreData.
Variable target : Z.

Let step := geo_first_step target (groupStoresByRegion stores).

Lemma geo_first_step_spec sel r :
  step sel r = sel
  \/ exists b, step sel r = sel ++ [b]
               /\ In b stores /\ fieldSalesRegio b = r.
Proof.
  unfold step, geo_first_step.
  destruct (lookup r (groupStoresByRegion stores)) as [g |] eqn:El;
    [| now left].
  destruct ((0 <? length g) && (len sel <? target)%Z); [| now left].
  destruct (best_of g) as [b |] eqn:Eb; [| now left].
  right. exists b. split; [reflexivity |].
  apply best_of_In in Eb.
  apply lookup_group_by in El. destruct El as [-> _].
  now apply with_key_In in Eb.
Qed.

Lemma geo_first_step_takes sel r :
  In r (map fieldSalesRegio stores) -> (len sel < target)%Z ->
  exists b, step sel r = sel ++ [b]
            /\ In b stores /\ fieldSalesRegio b = r.
Proof.
  intros Hr Hlt. apply in_map_iff in Hr. destruct Hr as (s & <- & Hs).
  destruct (lookup_group_by_present fieldSalesRegio stores s Hs)
    as (g & El & Hin).
  unfold step, geo_first_step, groupStoresByRegion. rewrite El.
  destruct g as [| s0 g]; [contradiction |].
  apply Z.ltb_lt in Hlt. rewrite Hlt. cbn [length Nat.ltb Nat.leb andb best_of].
  exists (reduce1 better s0 g). split; [reflexivity |].
  pose proof (reduce1_better_In s0 g) as Hb.
  apply lookup_group_by in El. destruct El as [E _].
  rewrite E in Hb. now apply with_key_In in Hb.
Qed.

Lemma geo_first_fold_sound rs acc :
  NoDup rs -> NoDup acc -> incl acc stores ->
  (forall s, In s acc -> ~ In (fieldSalesRegio s) rs) ->
  NoDup (fold_left step rs acc) /\ incl (fold_left step rs acc) stores.
Proof.
  revert acc. induction rs as [| r rs IH]; intros acc Hrs Hacc Hincl Hfresh.
  - now split.
  - inversion Hrs as [| ? ? Hr Hrs']; subst. simpl.
    destruct (geo_first_step_spec acc r) as [-> | (b & -> & Hb & Hreg)].
    + apply IH; auto. intros s Hs Hin. apply (Hfresh s Hs). now right.
    + apply IH; auto.
      * apply NoDup_app; auto.
        -- repeat constructor. intros [].
        -- intros a Ha [E | []]. subst a.
           apply (Hfresh b Ha). left. now symmetry.
      * intros x Hx. apply in_app_or in Hx.
        destruct Hx as [Hx | [<- | []]]; auto.
      * intros s Hs Hin. apply in_app_or in Hs.
        destruct Hs as [Hs | [<- | []]].
        -- apply (Hfresh s Hs). now right.
        -- congruence.
Qed.

Lemma geo_first_fold_covers rs acc :
  (forall r, In r rs -> In r (map fieldSalesRegio stores)) ->
  (Z.of_nat (length acc + length rs) <= target)%Z ->
  (exists ext, fold_left step rs acc = acc ++ ext)
  /\ length (fold_left step rs acc) = length acc + length rs
  /\ forall r, In r rs ->
       exists s, In s (fold_left step rs acc) /\ fieldSalesRegio s = r.
Proof.
  revert acc. induction rs as [| r rs IH]; intros acc Hrs Hlen.
  - simpl. split; [exists []; now rewrite app_nil_r |].
    split; [lia | contradiction].
  - simpl in *.
    destruct (geo_first_step_takes acc r) as (b & E & Hb & Hreg).
    { apply Hrs. now left. }
    { unfold len. lia. }
    rewrite E.
    destruct (IH (acc ++ [b])) as ((ext & Eext) & Hl & Hcov).
    { intros r' Hr'. apply Hrs. now right. }
    { rewrite length_app. simpl. lia. }
    split; [| split].
    + exists (b :: ext). rewrite Eext, <- app_assoc. reflexivity.
    + rewrite Hl, length_app. simpl. lia.
    + intros r' [<- | Hr'].
      * exists b. split; [| exact Hreg].
        rewrite Eext. apply in_or_app. left. apply in_or_app. right. now left.
      * now apply Hcov.
Qed.
End FirstPass.

Lemma sort_group_flat (d : list (string * list StoreData)) (r : string) :
  Permutation (flat (sort_group d r)) (flat d).
Proof.
  unfold sort_group. destruct (lookup r d) as [g |] eqn:El; [| reflexivity].
  destruct (flat_assign_old d r g (sort by_revenue_desc g) El)
    as (a & b & -> & ->).
  apply Permutation_app_head, Permutation_app_tail, sort_perm.
Qed.

Lemma sort_groups_flat (rs : list string) (d : list (string * list StoreData)) :
  Permutation (flat (sort_groups rs d)) (flat d).
Proof.
  unfold sort_groups. revert d. induction rs as [| r rs IH]; intros d; simpl.
  - reflexivity.
  - rewrite IH. apply sort_group_flat.
Qed.

(** One turn of the round robin moves the head of a queue to the end of
    the selection, or moves nothing. *)
Lemma round_robin_turn (avail : list (string * list StoreData)) (r : string)
  (s : StoreData) (rest sel : list StoreData) :
  lookup r avail = Some (s :: rest) ->
  Permutation (sel ++ flat avail) ((sel ++ [s]) ++ flat (assign r rest avail)).
Proof.
  intros El.
  destruct (flat_assign_old avail r (s :: rest) rest El) as (a & b & -> & ->).
  rewrite <- app_assoc. apply Permutation_app_head. simpl.
  symmetry. apply Permutation_middle.
Qed.

Lemma round_robin_spec (fuel : nat) (rs : list string) (target : Z) :
  forall i sel avail,
    (exists ext, round_robin fuel rs target i sel avail = sel ++ ext)
    /\ exists rest,
         Permutation (sel ++ flat avail)
           (round_robin fuel rs target i sel avail ++ rest).
Proof.
  induction fuel as [| fuel IH]; intros i sel avail.
  - simpl. split; [exists []; now rewrite app_nil_r | now exists (flat avail)].
  - cbn [round_robin].
    destruct (len sel <? target)%Z;
      [| split; [exists []; now rewrite app_nil_r | now exists (flat avail)]].
    set (taken := match nth_error rs (i mod length rs) with
                  | Some region => _
                  | None => _
                  end).
    assert (Htaken :
      (exists ext, fst taken = sel ++ ext)
      /\ Permutation (sel ++ flat avail) (fst taken ++ flat (snd taken))).
    { unfold taken.
      destruct (nth_error rs (i mod length rs)) as [r |];
        [| split; [exists []; now rewrite app_nil_r | reflexivity]].
      destruct (lookup r avail) as [[| s rest] |] eqn:El;
        try (split; [exists []; now rewrite app_nil_r | reflexivity]).
      split; [now exists [s] | now apply round_robin_turn]. }
    destruct Htaken as ((ext & Eext) & Hperm).
    destruct (length rs * 10 <? S i).
    + split; [now exists ext | now exists (flat (snd taken))].
    + destruct (IH (S i) (fst taken) (snd taken))
        as ((ext' & Eext') & (rest & Hrest)).
      split.
      * exists (ext ++ ext'). rewrite Eext', Eext. now rewrite app_assoc.
      * exists rest. now rewrite Hperm.
Qed.

(** The fuel given by [geographicDistributionSelection] is enough: from a
    state the loop can reach, any fuel that covers the iterations left
    before the [break] gives the same selection. *)
Lemma round_robin_fuel (rs : list string) (target : Z) :
  forall fuel1 fuel2 i sel avail,
    i <= length rs * 10 ->
    length rs * 10 + 1 <= i + fuel1 ->
    length rs * 10 + 1 <= i + fuel2 ->
    round_robin fuel1 rs target i sel avail
    = round_robin fuel2 rs target i sel avail.
Proof.
  induction fuel1 as [| fuel1 IH]; intros fuel2 i sel avail Hi H1 H2; [lia |].
  destruct fuel2 as [| fuel2]; [lia |].
  cbn [round_robin].
  destruct (len sel <? target)%Z; [| reflexivity].
  destruct (length rs * 10 <? S i) eqn:E; [reflexivity |].
  apply Nat.ltb_ge in E. apply IH; lia.
Qed.

Lemma sub_permutation_NoDup {A : Type} (l sub rest : list A) :
  Permutation l (sub ++ rest) -> NoDup l -> NoDup sub.
Proof.
  intros Hp Hl. apply (Permutation_NoDup Hp) in Hl.
  now apply NoDup_app_remove_r in Hl.
Qed.

Lemma sub_permutation_incl {A : Type} (l sub rest : list A) :
  Permutation l (sub ++ rest) -> incl sub l.
Proof.
  intros Hp x Hx. apply (Permutation_in x (Permutation_sym Hp)).
  apply in_or_app. now left.
Qed.

Lemma ten_stores_plain : plain_regions ten_stores.
Proof. apply plain_regions_existsb. vm_compute. reflexivity. Qed.

(** The region floor of geographic distribution, on candidates for which
    [groupStoresByRegion] returns (no region names a member of
    [Object.prototype]): when the number of distinct regions is at most the
    target, the selection holds a store of every region of the
    candidates. *)
Theorem geographic_region_floor (stores : list StoreData) (target : Z) :
  plain_regions stores ->
  (Z.of_nat (length (distinct (map fieldSalesRegio stores))) <= target)%Z ->
  forall region, In region (map fieldSalesRegio stores) ->
    exists s,
      In s (fst (geographicDistributionSelection stores (mkTarget target)))
      /\ fieldSalesRegio s = region.
Proof.
  intros _ Hcount region Hregion.
  unfold geographicDistributionSelection. cbn [fst total].
  set (regions := distinct (map fieldSalesRegio stores)) in *.
  set (first := geo_first_pass target (groupStoresByRegion stores) regions).
  destruct (geo_first_fold_covers stores target regions [])
    as (_ & Hlen & Hcov).
  { intros r Hr. exact (proj1 (distinct_In _ r) Hr). }
  { simpl. exact Hcount. }
  fold (geo_first_pass target (groupStoresByRegion stores) regions)
    in Hlen, Hcov.
  fold first in Hlen, Hcov. simpl in Hlen.
  destruct (Hcov region) as (s & Hs & Hreg).
  { exact (proj2 (distinct_In _ region) Hregion). }
  exists s. split; [| exact Hreg].
  set (final := if (0 <? target - len first)%Z then _ else first).
  assert (Hext : exists ext, final = first ++ ext).
  { unfold final. destruct (0 <? target - len first)%Z.
    - apply round_robin_spec.
    - exists []. now rewrite app_nil_r. }
  destruct Hext as (ext & ->).
  rewrite slice_from_0 by lia.
  rewrite firstn_app. apply in_or_app. left.
  rewrite firstn_all2 by lia. exact Hs.
Qed.

Lemma geographic_region_floor_witness :
  exists s,
    In s (fst (geographicDistributionSelection ten_stores (mkTarget 2)))
    /\ fieldSalesRegio s = "South"%string.
Proof.
  apply (geographic_region_floor ten_stores 2).
  - exact ten_stores_plain.
  - vm_compute. discriminate.
  - vm_compute. tauto.
Defined.

(** C7 at a candidate whose region is named [constructor], with a target of
    one for its one region: [geographicDistributionSelection] begins with
    [groupStoresByRegion(stores)], whose reducer finds the inherited
    [Object.prototype.constructor] under that name, creates no array and
    throws at [push].  The call returns no selection, where the claim has
    the region covered. *)
Theorem geographic_inherited_region :
  let stores := [sample 0 "Alfa 1" "constructor" 100] in
  (Z.of_nat (length (distinct (map fieldSalesRegio stores))) <= 1)%Z
  /\ get "constructor" (@nil (string * list StoreData)) = Inherited
  /\ groupStoresByRegion_object stores = None.
Proof. vm_compute. split; [discriminate | split; reflexivity]. Qed.

(** ** Soundness of the selections *)


Lemma pool_ok_done stores sel pool :
  pool_ok stores sel pool -> sound stores sel.
Proof.
  intros [Hn Hi]. split.
  - now apply NoDup_app_remove_r in Hn.
  - intros x Hx. apply Hi, in_or_app. now left.
Qed.

Lemma pool_ok_perm stores sel pool pool' :
  Permutation pool pool' -> pool_ok stores sel pool -> pool_ok stores sel pool'.
Proof.
  intros Hp [Hn Hi].
  assert (Hperm : Permutation (sel ++ pool) (sel ++ pool'))
    by now apply Permutation_app_head.
  split.
  - exact (Permutation_NoDup Hperm Hn).
  - intros x Hx. apply Hi. exact (Permutation_in x (Permutation_sym Hperm) Hx).
Qed.

Lemma pool_ok_take stores sel g b t e :
  Permutation g (t ++ e) ->
  pool_ok stores sel (g ++ b) -> pool_ok stores (sel ++ t) b.
Proof.
  intros Hg Hok.
  assert (Hok' : pool_ok stores sel (t ++ b ++ e)).
  { apply (pool_ok_perm stores sel (g ++ b)); [| exact Hok].
    rewrite Hg, <- app_assoc.
    apply Permutation_app_head, Permutation_app_comm. }
  destruct Hok' as [Hn Hi]. split.
  - rewrite <- app_assoc.
    rewrite !app_assoc in Hn. apply NoDup_app_remove_r in Hn.
    now rewrite <- app_assoc in Hn.
  - intros x Hx. apply Hi. rewrite <- app_assoc in Hx.
    apply in_app_or in Hx. apply in_or_app.
    destruct Hx as [Hx | Hx]; [now left | right].
    apply in_app_or in Hx. apply in_or_app.
    destruct Hx as [Hx | Hx]; [now left | right].
    apply in_or_app. now left.
Qed.

Lemma pool_ok_skip stores sel g b :
  pool_ok stores sel (g ++ b) -> pool_ok stores sel b.
Proof.
  intros Hok.
  assert (H := pool_ok_take stores sel g b [] g (Permutation_refl g) Hok).
  now rewrite app_nil_r in H.
Qed.

Lemma slice_sub_perm {A : Type} (l : list A) (s e : Z) :
  exists extra, Permutation l (slice l s e ++ extra).
Proof.
  destruct (slice_split l s e) as (pre & post & E).
  exists (pre ++ post). rewrite E at 1.
  rewrite app_assoc, (Permutation_app_comm pre), <- app_assoc.
  reflexivity.
Qed.

Lemma sound_slice stores sel s e :
  sound stores sel -> sound stores (slice sel s e).
Proof.
  intros [Hn Hi]. split.
  - now apply slice_NoDup.
  - intros x Hx. now apply Hi, (slice_incl sel s e).
Qed.

Lemma sound_app stores sel more :
  sound stores sel -> sound stores more ->
  (forall x, In x sel -> ~ In x more) -> sound stores (sel ++ more).
Proof.
  intros [Hn Hi] [Hn' Hi'] Hd. split.
  - now apply NoDup_app.
  - now apply incl_app.
Qed.

Lemma sound_not_included stores sel :
  NoDup stores ->
  sound stores (filter (fun store => negb (includes sel store)) stores).
Proof.
  intros Hn. split; [now apply NoDup_filter | apply incl_filter].
Qed.

Lemma sound_incl stores stores' sel :
  incl stores stores' -> sound stores sel -> sound stores' sel.
Proof.
  intros Hs [Hn Hi]. split; [exact Hn |].
  intros x Hx. now apply Hs, Hi.
Qed.

Lemma sound_sort stores sel cmp :
  sound stores sel -> sound stores (sort cmp sel).
Proof.
  intros [Hn Hi]. split; [now apply sort_NoDup |].
  intros x Hx. now apply Hi, (sort_In cmp sel x).
Qed.

Lemma revenue_sound (stores : list StoreData) (targetConfig : TargetConfig) :
  NoDup stores ->
  sound stores (fst (revenueMaximizationSelection stores targetConfig)).
Proof.
  intros Hn. unfold revenueMaximizationSelection. cbn [fst].
  apply sound_slice, sound_sort. split; [exact Hn | apply incl_refl].
Qed.

Lemma geographic_sound (stores : list StoreData) (targetConfig : TargetConfig) :
  NoDup stores ->
  sound stores (fst (geographicDistributionSelection stores targetConfig)).
Proof.
  intros Hn. unfold geographicDistributionSelection. cbn [fst].
  set (target := total targetConfig).
  set (regions := distinct (map fieldSalesRegio stores)).
  set (first := geo_first_pass target (groupStoresByRegion stores) regions).
  assert (Hfirst : sound stores first).
  { apply (geo_first_fold_sound stores target regions []).
    - apply distinct_NoDup.
    - constructor.
    - intros x [].
    - intros s []. }
  apply sound_slice.
  destruct (0 <? target - len first)%Z; [| exact Hfirst].
  set (available := filter _ stores).
  set (queues := sort_groups regions (groupStoresByRegion available)).
  destruct (round_robin_spec (length regions * 10 + 1) regions target 0
              first queues) as (_ & rest & Hperm).
  assert (Hpool : pool_ok stores first (flat queues)).
  { apply (pool_ok_perm stores first available).
    - unfold queues. rewrite sort_groups_flat.
      symmetry. apply group_by_flat.
    - destruct Hfirst as [Hn1 Hi1].
      destruct (sound_not_included stores first Hn) as [Hn2 Hi2].
      split.
      + apply NoDup_app; auto. apply not_included_disjoint.
      + now apply incl_app. }
  destruct Hpool as [Hn' Hi']. split.
  - exact (sub_permutation_NoDup _ _ _ Hperm Hn').
  - intros x Hx. apply Hi'.
    exact (sub_permutation_incl _ _ _ Hperm x Hx).
Qed.

(** *** Growth potential *)

Lemma slice_middle_then_prefix {A : Type} (l : list A) (a b : nat) :
  NoDup l ->
  NoDup (slice l (Z.of_nat a) (Z.of_nat b) ++ slice l 0 (Z.of_nat a)).
Proof.
  intros Hn.
  rewrite (slice_from_0 l (Z.of_nat a)) by lia. rewrite Nat2Z.id.
  unfold slice.
  destruct (Z.of_nat a <? 0)%Z eqn:Ea; [apply Z.ltb_lt in Ea; lia |].
  set (c := Z.to_nat _).
  set (k := Z.to_nat (Z.min (Z.of_nat a) (Z.of_nat (length l)))).
  assert (Hpre : firstn a l = firstn k l).
  { unfold k. destruct (Nat.le_gt_cases a (length l)).
    - f_equal. lia.
    - rewrite !firstn_all2 by lia. reflexivity. }
  rewrite Hpre.
  rewrite <- (firstn_skipn k l) in Hn.
  rewrite <- (firstn_skipn c (skipn k l)) in Hn.
  rewrite app_assoc in Hn. apply NoDup_app_remove_r in Hn.
  exact (Permutation_NoDup (Permutation_app_comm _ _) Hn).
Qed.

Lemma growth_first_fold (stores : list StoreData) (target : Z) :
  forall l sel used,
    pool_ok stores sel l ->
    sound stores (fst (fold_left (growth_first_step target) l (sel, used))).
Proof.
  induction l as [| x l IH]; intros sel used Hok; simpl.
  - now apply pool_ok_done in Hok.
  - destruct (negb (has used (fieldSalesRegio x)) && (len sel <? target)%Z).
    + apply IH.
      apply (pool_ok_take stores sel [x] l [x] []); [reflexivity | exact Hok].
    + apply IH. apply (pool_ok_skip stores sel [x] l). exact Hok.
Qed.

Lemma growth_second_fold (stores : list StoreData) (target : Z) :
  forall l sel,
    incl l stores -> sound stores sel ->
    sound stores (fold_left (growth_second_step target) l sel).
Proof.
  induction l as [| x l IH]; intros sel Hl Hsel; simpl; [exact Hsel |].
  apply IH; [intros y Hy; apply Hl; now right |].
  unfold growth_second_step.
  destruct (includes sel x) eqn:E; simpl; [exact Hsel |].
  destruct (len sel <? target)%Z; [| exact Hsel].
  apply sound_app; [exact Hsel | |].
  - split; [repeat constructor; intros [] |].
    intros y [<- | []]. apply Hl. now left.
  - intros y Hy [E' | []]. subst y.
    rewrite (includes_In sel x Hy) in E. discriminate.
Qed.

Lemma growth_sound `{Rounding} (stores : list StoreData)
  (targetConfig : TargetConfig) :
  NoDup stores ->
  sound stores (fst (growthPotentialSelection stores targetConfig)).
Proof.
  intros Hn. unfold growthPotentialSelection. cbn [fst].
  set (target := total targetConfig).
  set (sorted := sort by_revenue_asc stores).
  assert (Hsorted : sound stores sorted)
    by (apply sound_sort; split; [exact Hn | apply incl_refl]).
  destruct Hsorted as [Hns His].
  set (a := floor_mul (length sorted) (2 # 10)).
  set (b := floor_mul (length sorted) (7 # 10)).
  set (pool := if (len (slice sorted (Z.of_nat a) (Z.of_nat b)) <? target)%Z
               then _ else _).
  assert (Hpool : sound stores pool).
  { unfold pool. destruct (_ <? target)%Z.
    - split; [now apply slice_middle_then_prefix |].
      apply incl_app; intros x Hx; apply His; eapply slice_incl; exact Hx.
    - apply sound_slice. now split. }
  apply sound_slice.
  apply growth_second_fold; [apply Hpool |].
  apply growth_first_fold. destruct Hpool as [Hnp Hip].
  split; simpl; assumption.
Qed.

(** *** Portfolio balance *)

Lemma experimental_loop_sound (stores : list StoreData) (count : Z)
  (finalRemaining : list StoreData) :
  incl finalRemaining stores ->
  forall rs acc,
    NoDup rs -> sound stores acc ->
    incl acc finalRemaining ->
    (forall s, In s acc -> ~ In (fieldSalesRegio s) rs) ->
    sound stores (experimental_loop count finalRemaining rs acc)
    /\ incl (experimental_loop count finalRemaining rs acc) finalRemaining.
Proof.
  intros Hfr.
  induction rs as [| r rs IH]; intros acc Hrs Hacc Hsub Hfresh; simpl.
  - now split.
  - destruct (count <=? len acc)%Z; [now split |].
    inversion Hrs as [| ? ? Hr Hrs']; subst.
    set (regionStores := filter _ finalRemaining).
    assert (Hkeep : forall s, In s acc -> ~ In (fieldSalesRegio s) rs)
      by (intros s Hs Hin; apply (Hfresh s Hs); now right).
    destruct (0 <? length regionStores); [| now apply IH].
    destruct (best_of regionStores) as [b |] eqn:Eb; [| now apply IH].
    apply best_of_In in Eb. unfold regionStores in Eb.
    apply filter_In in Eb. destruct Eb as [Hb Hreg].
    apply String.eqb_eq in Hreg.
    apply IH; auto.
    + apply sound_app; [exact Hacc | |].
      * split; [repeat constructor; intros [] |].
        intros y [<- | []]. now apply Hfr.
      * intros y Hy [E | []]. subst y. apply (Hfresh b Hy). now left.
    + apply incl_app; [exact Hsub |]. intros y [<- | []]. exact Hb.
    + intros s Hs Hin. apply in_app_or in Hs.
      destruct Hs as [Hs | [<- | []]]; [now apply (Hkeep s) | congruence].
Qed.

Lemma portfolio_sound `{Rounding} (stores : list StoreData)
  (targetConfig : TargetConfig) :
  NoDup stores ->
  sound stores (fst (portfolioBalanceSelection stores targetConfig)).
Proof.
  intros Hn. unfold portfolioBalanceSelection.
  set (target := total targetConfig).
  set (coreCount := round_mul target (7 # 10)).
  set (growthCount := round_mul target (2 # 10)).
  pose proof (geographic_sound stores (mkTarget coreCount) Hn) as Hcore.
  destruct (geographicDistributionSelection stores (mkTarget coreCount))
    as [core stores'] eqn:Egeo.
  assert (Es : stores' = stores)
    by (unfold geographicDistributionSelection in Egeo; congruence).
  subst stores'. cbn [fst] in Hcore |- *.
  set (remaining := filter (fun store => negb (includes core store)) stores).
  set (growth :=
         fst (growthPotentialSelection remaining (mkTarget growthCount))).
  assert (Hrem : sound stores remaining) by now apply sound_not_included.
  assert (Hgrowth : sound remaining growth)
    by (apply growth_sound; apply Hrem).
  assert (Hsel : sound stores (core ++ growth)).
  { apply sound_app; [exact Hcore | |].
    - apply (sound_incl remaining); [apply Hrem | exact Hgrowth].
    - intros x Hx Hg. apply (not_included_disjoint core stores x Hx).
      now apply Hgrowth. }
  set (finalRemaining :=
         filter (fun store => negb (includes (core ++ growth) store)) stores).
  assert (Hfr : sound stores finalRemaining) by now apply sound_not_included.
  apply sound_slice.
  destruct ((0 <? length finalRemaining)
            && (0 <? target - coreCount - growthCount)%Z); [| exact Hsel].
  set (under := filter _ (distinct (map fieldSalesRegio stores))).
  set (experimental :=
         experimental_loop (target - coreCount - growthCount) finalRemaining
           under []).
  destruct (experimental_loop_sound stores (target - coreCount - growthCount)
              finalRemaining (proj2 Hfr) under []) as [Hexp Hexp_sub].
  { apply NoDup_filter, distinct_NoDup. }
  { split; [constructor | intros x []]. }
  { intros x []. }
  { intros s []. }
  fold experimental in Hexp, Hexp_sub.
  set (rest := sort by_revenue_asc
                 (filter (fun store => negb (includes experimental store))
                    finalRemaining)).
  assert (Hrest : sound finalRemaining rest).
  { apply sound_sort, sound_not_included, Hfr. }
  assert (Hdisj : forall x, In x experimental -> ~ In x rest).
  { intros x Hx Hin. unfold rest in Hin.
    apply (proj1 (sort_In by_revenue_asc _ x)) in Hin.
    exact (not_included_disjoint experimental finalRemaining x Hx Hin). }
  apply sound_app; [exact Hsel | |].
  - apply sound_app; [exact Hexp | |].
    + apply sound_slice.
      apply (sound_incl finalRemaining); [apply Hfr | exact Hrest].
    + intros x Hx Hin. apply (Hdisj x Hx). eapply slice_incl; exact Hin.
  - intros x Hx Hin.
    apply (not_included_disjoint (core ++ growth) stores x Hx).
    apply in_app_or in Hin. destruct Hin as [Hin | Hin].
    + now apply Hexp_sub.
    + apply Hrest. eapply slice_incl; exact Hin.
Qed.

(** *** Market penetration and demographic targeting *)

Lemma pool_ok_start (stores pool : list StoreData) :
  NoDup stores -> Permutation pool stores -> pool_ok stores [] pool.
Proof.
  intros Hn Hp. split; simpl.
  - exact (Permutation_NoDup (Permutation_sym Hp) Hn).
  - intros x Hx. exact (Permutation_in x Hp Hx).
Qed.

Lemma concat_map_sort {A : Type} (f : A -> list StoreData)
  (cmp : A -> A -> Q) (l : list A) :
  Permutation (concat (map f (sort cmp l))) (concat (map f l)).
Proof.
  rewrite <- !flat_map_concat_map.
  apply Permutation_flat_map, sort_perm.
Qed.

Lemma market_loop_sound `{Rounding} (stores : list StoreData) (target : Z)
  (n : nat) :
  forall ds sel,
    pool_ok stores sel (concat (map rd_stores ds)) ->
    sound stores (market_loop target n ds sel).
Proof.
  induction ds as [| d ds IH]; intros sel Hok; simpl.
  - now apply pool_ok_done in Hok.
  - destruct (target <=? len sel)%Z; [now apply pool_ok_done in Hok |].
    apply IH. simpl in Hok.
    set (k := Z.max 1 _).
    destruct (slice_sub_perm (sort by_revenue_desc (rd_stores d)) 0 k)
      as (extra & Hextra).
    apply (pool_ok_take stores sel (rd_stores d) _ _ extra); [| exact Hok].
    rewrite <- Hextra. symmetry. apply sort_perm.
Qed.

Lemma market_sound `{Rounding} (stores : list StoreData)
  (targetConfig : TargetConfig) :
  NoDup stores ->
  sound stores (fst (marketPenetrationSelection stores targetConfig)).
Proof.
  intros Hn. unfold marketPenetrationSelection. cbn [fst].
  apply sound_slice, market_loop_sound, pool_ok_start; [exact Hn |].
  rewrite concat_map_sort, map_map.
  rewrite <- (group_by_flat fieldSalesRegio stores) at 2.
  rewrite <- (entries_flat (group_by fieldSalesRegio stores)).
  unfold flat, groupStoresByRegion.
  erewrite map_ext; [reflexivity |]. now intros [region g].
Qed.

Lemma demographic_loop_sound `{Rounding} (stores : list StoreData)
  (target : Z) :
  forall segs sel,
    pool_ok stores sel (concat (map seg_stores segs)) ->
    sound stores (demographic_loop target segs sel).
Proof.
  induction segs as [| seg segs IH]; intros sel Hok; simpl.
  - now apply pool_ok_done in Hok.
  - destruct (target <=? len sel)%Z; [now apply pool_ok_done in Hok |].
    apply IH. simpl in Hok.
    set (k := Z.min _ _).
    destruct (slice_sub_perm (seg_stores seg) 0 k) as (extra & Hextra).
    now apply (pool_ok_take stores sel (seg_stores seg) _ _ extra).
Qed.

Lemma sorted_groups_flat (groups : list (string * list StoreData)) :
  Permutation (concat (map seg_stores (map segment_of groups))) (flat groups).
Proof.
  unfold flat. induction groups as [| [segment g] groups IH]; simpl.
  - reflexivity.
  - apply Permutation_app; [apply sort_perm | exact IH].
Qed.

Lemma demographic_sound `{Rounding} (stores : list StoreData)
  (targetConfig : TargetConfig) :
  NoDup stores ->
  sound stores (fst (demographicTargetingSelection stores targetConfig)).
Proof.
  intros Hn. unfold demographicTargetingSelection. cbn [fst].
  apply sound_slice, demographic_loop_sound, pool_ok_start; [exact Hn |].
  rewrite concat_map_sort, sorted_groups_flat, entries_flat.
  apply group_by_flat.
Qed.

(** *** All strategies *)

Lemma dispatch_cases `{Rounding} (strategy : SelectionStrategy)
  (stores : list StoreData) (targetConfig : TargetConfig) :
  In (dispatch strategy stores targetConfig)
    [ revenueMaximizationSelection stores targetConfig;
      geographicDistributionSelection stores targetConfig;
      growthPotentialSelection stores targetConfig;
      portfolioBalanceSelection stores targetConfig;
      marketPenetrationSelection stores targetConfig;
      demographicTargetingSelection stores targetConfig ].
Proof.
  unfold dispatch.
  repeat match goal with
         | |- context [if ?c then _ else _] => destruct c
         end; simpl; tauto.
Qed.

Lemma dispatch_sound `{Rounding} (strategy : SelectionStrategy)
  (stores : list StoreData) (targetConfig : TargetConfig) :
  NoDup stores -> sound stores (fst (dispatch strategy stores targetConfig)).
Proof.
  intros Hn.
  destruct (dispatch_cases strategy stores targetConfig)
    as [<- | [<- | [<- | [<- | [<- | [<- | []]]]]]].
  - now apply revenue_sound.
  - now apply geographic_sound.
  - now apply growth_sound.
  - now apply portfolio_sound.
  - now apply market_sound.
  - now apply demographic_sound.
Qed.

Lemma dispatch_slice `{Rounding} (strategy : SelectionStrategy)
  (stores : list StoreData) (targetConfig : TargetConfig) :
  exists l, fst (dispatch strategy stores targetConfig)
            = slice l 0 (total targetConfig).
Proof.
  destruct (dispatch_cases strategy stores targetConfig)
    as [<- | [<- | [<- | [<- | [<- | [<- | []]]]]]];
    eexists; reflexivity.
Qed.

Lemma NoDup_map_inj {A B : Type} (f : A -> B) (l : list A) :
  NoDup (map f l) ->
  forall x y, In x l -> In y l -> f x = f y -> x = y.
Proof.
  induction l as [| a l IH]; simpl; intros Hn x y Hx Hy E; [contradiction |].
  inversion Hn as [| ? ? Ha Hl]; subst.
  destruct Hx as [<- | Hx], Hy as [<- | Hy]; auto.
  - exfalso. apply Ha. rewrite E. now apply in_map.
  - exfalso. apply Ha. rewrite <- E. now apply in_map.
Qed.

Lemma sound_refs (stores selected : list StoreData) :
  NoDup (map ref stores) -> sound stores selected ->
  NoDup (map ref selected).
Proof.
  intros Hn [Hs Hi].
  apply Finite.Injective_map_NoDup_in; [| exact Hs].
  intros x y Hx Hy. apply (NoDup_map_inj ref stores Hn); now apply Hi.
Qed.

(** C1, amended: on candidates that are distinct objects, each of the six
    strategy implementations returns candidates only and no object twice,
    and, for a target that is not negative, at most
    [min(target, |candidates|)] records. *)
Theorem selection_cardinality `{Rounding} (stores : list StoreData)
  (target : Z) (result : list StoreData * list StoreData) :
  NoDup (map ref stores) ->
  In result
    [ revenueMaximizationSelection stores (mkTarget target);
      geographicDistributionSelection stores (mkTarget target);
      growthPotentialSelection stores (mkTarget target);
      portfolioBalanceSelection stores (mkTarget target);
      marketPenetrationSelection stores (mkTarget target);
      demographicTargetingSelection stores (mkTarget target) ] ->
  let selected := fst result in
  ((0 <= target)%Z -> (len selected <= Z.min target (len stores))%Z)
  /\ incl selected stores
  /\ NoDup (map ref selected).
Proof.
  intros Hrefs Hresult selected.
  assert (Hn : NoDup stores) by exact (NoDup_map_inv ref stores Hrefs).
  assert (Hsound : sound stores selected).
  { unfold selected.
    destruct Hresult as [<- | [<- | [<- | [<- | [<- | [<- | []]]]]]].
    - now apply revenue_sound.
    - now apply geographic_sound.
    - now apply growth_sound.
    - now apply portfolio_sound.
    - now apply market_sound.
    - now apply demographic_sound. }
  assert (Hslice : exists l, selected = slice l 0 target).
  { unfold selected.
    destruct Hresult as [<- | [<- | [<- | [<- | [<- | [<- | []]]]]]];
      eexists; reflexivity. }
  split; [| split].
  - intros Htarget. destruct Hslice as (l & Hl).
    assert (H1 : (len selected <= target)%Z)
      by (unfold len; rewrite Hl; now apply slice_from_0_length).
    assert (H2 : length selected <= length stores)
      by (apply NoDup_incl_length; apply Hsound).
    unfold len in *. lia.
  - apply Hsound.
  - now apply (sound_refs stores).
Qed.

Lemma selection_cardinality_witness :
  let selected := fst (portfolioBalanceSelection ten_stores (mkTarget 4)) in
  (len selected <= Z.min 4 (len ten_stores))%Z
  /\ incl selected ten_stores
  /\ NoDup (map ref selected).
Proof.
  intros selected.
  assert (Hrefs : NoDup (map ref ten_stores))
    by (change (NoDup (seq 0 10)); apply seq_NoDup).
  destruct (selection_cardinality ten_stores 4
              (portfolioBalanceSelection ten_stores (mkTarget 4)) Hrefs)
    as (Hlen & Hincl & Hnodup).
  - simpl. tauto.
  - split; [apply Hlen; lia | split; assumption].
Defined.

(** C1 as it is written, for every candidate list and every target, fails
    twice.  A target of [-1] reaches [slice(0, -1)], which drops the last
    record only: two records are returned, more than [min(-1, 3)].  And an
    array that holds one object twice gets it back twice. *)
Lemma selection_cardinality_refuted :
  let stores :=
    [ sample 0 "Alfa 1" "North" 100; sample 1 "Alfa 2" "North" 300;
      sample 2 "Alfa 3" "South" 200 ] in
  let a := sample 0 "Alfa 1" "North" 100 in
  ~ (len (fst (revenueMaximizationSelection stores (mkTarget (-1))))
     <= Z.min (-1) (len stores))%Z
  /\ ~ NoDup (map ref (fst (revenueMaximizationSelection [a; a] (mkTarget 2)))).
Proof.
  split.
  - vm_compute. intros Hle. now apply Hle.
  - vm_compute. intros Hn. inversion Hn as [| x l Hin Hl]; subst.
    apply Hin. now left.
Qed.

(** The same through the dispatcher, for every strategy identifier. *)
Corollary dispatch_cardinality `{Rounding} (strategy : SelectionStrategy)
  (stores : list StoreData) (target : Z) :
  NoDup (map ref stores) ->
  (0 <= target)%Z ->
  let selected := fst (dispatch strategy stores (mkTarget target)) in
  (len selected <= Z.min target (len stores))%Z
  /\ incl selected stores
  /\ NoDup (map ref selected).
Proof.
  intros Hrefs Htarget selected.
  assert (Hn : NoDup stores) by exact (NoDup_map_inv ref stores Hrefs).
  pose proof (dispatch_sound strategy stores (mkTarget target) Hn) as Hsound.
  destruct (dispatch_slice strategy stores (mkTarget target)) as (l & Hl).
  fold selected in Hsound, Hl. cbn [total] in Hl.
  split; [| split].
  - assert (H1 : (len selected <= target)%Z)
      by (unfold len; rewrite Hl; now apply slice_from_0_length).
    assert (H2 : length selected <= length stores)
      by (apply NoDup_incl_length; apply Hsound).
    unfold len in *. lia.
  - apply Hsound.
  - now apply (sound_refs stores).
Qed.

(** Outside these conditions: a negative target reaches [slice(0, -1)],
    which drops the last record instead of returning nothing, and an array
    that holds one object twice gets it back twice. *)
Remark revenue_focus_negative_target :
  map ref
    (fst (revenueMaximizationSelection
            [sample 0 "Alfa 1" "North" 100; sample 1 "Alfa 2" "North" 300;
             sample 2 "Alfa 3" "South" 200]
            (mkTarget (-1))))
  = [1; 2].
Proof. vm_compute. reflexivity. Qed.

Remark revenue_focus_repeated_object :
  let a := sample 0 "Alfa 1" "North" 100 in
  fst (revenueMaximizationSelection [a; a] (mkTarget 2)) = [a; a].
Proof. vm_compute. reflexivity. Qed.

(** * Further properties of the engine *)

(** ** Grouping by region *)

(** [groupStoresByRegion] throws exactly when a store has a region that
    names a member of [Object.prototype].  Otherwise reading the returned
    object under a region yields the stores of that region, in their input
    order; under a region with no store it yields no empty group but
    [undefined], or the inherited member when the region names one. *)
Theorem groupStoresByRegion_lookup (stores : list StoreData) :
  match groupStoresByRegion_object stores with
  | None => exists s, In s stores /\ inherited (fieldSalesRegio s) = true
  | Some d =>
      plain_regions stores
      /\ forall region,
           get region d
           = match
               filter (fun s => String.eqb (fieldSalesRegio s) region) stores
             with
             | [] => if inherited region then Inherited else Undefined
             | g => Own g
             end
  end.
Proof.
  unfold groupStoresByRegion_object. rewrite group_by_object_plain.
  destruct (existsb (fun s => inherited (fieldSalesRegio s)) stores) eqn:E.
  - apply existsb_exists in E. exact E.
  - split; [now apply plain_regions_existsb |].
    intros region. unfold get.
    rewrite (group_by_represents fieldSalesRegio stores region).
    unfold with_key.
    now destruct (filter (fun s => String.eqb (fieldSalesRegio s) region)
                    stores).
Qed.

Lemma distinct_from_ext (seen seen' l : list string) :
  (forall x, In x seen <-> In x seen') ->
  distinct_from seen l = distinct_from seen' l.
Proof.
  revert seen seen'. induction l as [| y l IH]; intros seen seen' Hs; simpl.
  - reflexivity.
  - assert (E : existsb (String.eqb y) seen = existsb (String.eqb y) seen').
    { apply eq_true_iff_eq. fold (has seen y) (has seen' y).
      rewrite !has_In. apply Hs. }
    rewrite E. destruct (existsb (String.eqb y) seen').
    + now apply IH.
    + f_equal. apply IH. intros x. simpl. rewrite Hs. tauto.
Qed.

Lemma keys_assign {V : Type} (k : string) (v : V) (d : list (string * V)) :
  map fst (assign k v d)
  = if has (map fst d) k then map fst d else map fst d ++ [k].
Proof.
  induction d as [| [k' v'] d IH]; simpl.
  - reflexivity.
  - destruct (String.eqb_spec k k') as [<- | NE]; simpl.
    + reflexivity.
    + rewrite IH. unfold has. now destruct (existsb (String.eqb k) (map fst d)).
Qed.

(** A loop that assigns under the key of each element creates the keys in
    order of first occurrence. *)
Lemma keys_fold_assign {X V : Type} (key : X -> string)
  (val : list (string * V) -> X -> V) (l : list X) :
  forall d,
    map fst (fold_left (fun d x => assign (key x) (val d x) d) l d)
    = map fst d ++ distinct_from (map fst d) (map key l).
Proof.
  induction l as [| x l IH]; intros d; simpl.
  - now rewrite app_nil_r.
  - rewrite IH, keys_assign. fold (has (map fst d) (key x)).
    destruct (has (map fst d) (key x)) eqn:E.
    + reflexivity.
    + rewrite <- app_assoc. simpl. f_equal. f_equal.
      apply distinct_from_ext. intros y. rewrite in_app_iff. simpl. tauto.
Qed.

Lemma group_push_assign (key : StoreData -> string)
  (d : list (string * list StoreData)) (x : StoreData) :
  group_push key d x
  = assign (key x)
      (match lookup (key x) d with Some g => g ++ [x] | None => [x] end) d.
Proof. unfold group_push. now destruct (lookup (key x) d). Qed.

Lemma fold_left_pointwise {X Y : Type} (f g : Y -> X -> Y) (l : list X) :
  (forall d x, f d x = g d x) ->
  forall d, fold_left f l d = fold_left g l d.
Proof.
  intros Hfg. induction l as [| x l IH]; intros d; simpl; [reflexivity |].
  now rewrite Hfg, IH.
Qed.

Lemma group_by_keys (key : StoreData -> string) (l : list StoreData) :
  map fst (group_by key l) = distinct (map key l).
Proof.
  unfold group_by, distinct.
  rewrite (fold_left_pointwise _ _ l (group_push_assign key)).
  apply (keys_fold_assign key
           (fun d x => match lookup (key x) d with
                       | Some g => g ++ [x]
                       | None => [x]
                       end) l []).
Qed.

(** The object that [groupStoresByRegion] returns, as [Object.entries]
    lists it: the keys are the distinct regions, each once; the regions that
    are array indices come first in ascending numeric order, the others
    follow in the order in which they first occur; and the groups together
    hold every store exactly as often as the input does. *)
Theorem groupStoresByRegion_partition (stores : list StoreData)
  (d : list (string * list StoreData)) :
  groupStoresByRegion_object stores = Some d ->
  let keys := map fst (entries d) in
  let regions := distinct (map fieldSalesRegio stores) in
  Permutation keys regions
  /\ NoDup keys
  /\ (exists indices,
        keys = indices ++ filter (fun k => negb (is_index k)) regions
        /\ Forall (fun k => is_index k = true) indices
        /\ StronglySorted (fun a b => (index_value a <= index_value b)%Q)
             indices)
  /\ Permutation (concat (map snd (entries d))) stores.
Proof.
  intros Hd keys regions.
  apply groupStoresByRegion_returned in Hd. destruct Hd as [_ ->].
  assert (Hkeys : map fst (groupStoresByRegion stores) = regions)
    by apply group_by_keys.
  assert (Hperm : Permutation keys regions).
  { unfold keys. rewrite entries_keys_perm. now rewrite Hkeys. }
  split; [exact Hperm | split; [| split]].
  - apply (Permutation_NoDup (Permutation_sym Hperm)), distinct_NoDup.
  - unfold keys. rewrite <- Hkeys. apply entries_keys.
  - fold (flat (entries (groupStoresByRegion stores))).
    rewrite entries_flat. apply (group_by_flat fieldSalesRegio stores).
Qed.

Lemma groupStoresByRegion_partition_witness :
  let stores :=
    [ sample 0 "Alfa 1" "2" 100; sample 1 "Alfa 2" "West" 200;
      sample 2 "Alfa 3" "1" 300; sample 3 "Alfa 4" "2" 400 ] in
  Permutation (map fst (entries (groupStoresByRegion stores)))
    (distinct (map fieldSalesRegio stores)).
Proof.
  intros stores.
  destruct (groupStoresByRegion_partition stores (groupStoresByRegion stores))
    as (Hperm & _).
  - vm_compute. reflexivity.
  - exact Hperm.
Defined.

(** Regions named by numbers: the groups are created in the order 2, West,
    1 and listed in the order 1, 2, West, which is the order in which
    market penetration meets regions of equal density and average. *)
Remark entries_numeric_regions :
  let stores :=
    [ sample 0 "Alfa 1" "2" 100; sample 1 "Alfa 2" "West" 200;
      sample 2 "Alfa 3" "1" 300; sample 3 "Alfa 4" "2" 400 ] in
  map fst (groupStoresByRegion stores) = ["2"; "West"; "1"]%string
  /\ map fst (entries (groupStoresByRegion stores)) = ["1"; "2"; "West"]%string.
Proof. vm_compute. split; reflexivity. Qed.

(** ** Revenue focus: order and effect on the array *)

Lemma sort_sorted_id {A : Type} (key : A -> Q) (l : list A) :
  Sorted (ge_key key) l -> sort (desc key) l = l.
Proof.
  induction 1 as [| x l Hs IH Hhd]; simpl; [reflexivity |].
  rewrite IH. destruct Hhd as [| y l Hxy]; simpl; [reflexivity |].
  unfold Qlt_bool, desc, ge_key in *.
  assert (E : Qle_bool 0 (key x - key y) = true)
    by (apply Qle_bool_iff; lra).
  now rewrite E.
Qed.

Lemma strongly_sorted_slice {A : Type} (R : A -> A -> Prop) (l : list A)
  (s e : Z) :
  StronglySorted R l -> StronglySorted R (slice l s e).
Proof.
  destruct (slice_split l s e) as (pre & post & E).
  intros H. rewrite E in H.
  assert (Hmid : StronglySorted R (slice l s e ++ post)).
  { clear E. induction pre as [| x pre IH]; simpl in H; [exact H |].
    apply IH. now apply StronglySorted_inv in H. }
  now apply strongly_sorted_app in Hmid.
Qed.

(** Revenue focus on candidates that already stand in descending order of
    revenue (ties included) returns the first [target] of them as they
    stand and leaves the array as it was. *)
Theorem revenue_focus_on_sorted (stores : list StoreData) (target : Z) :
  (0 <= target)%Z ->
  Sorted (fun a b => (prodSelect b <= prodSelect a)%Q) stores ->
  revenueMaximizationSelection stores (mkTarget target)
  = (firstn (Z.to_nat target) stores, stores).
Proof.
  intros Ht Hs. unfold revenueMaximizationSelection. cbn [total].
  change by_revenue_desc with (desc prodSelect).
  rewrite (sort_sorted_id prodSelect stores Hs).
  now rewrite slice_from_0.
Qed.

Lemma revenue_focus_on_sorted_witness :
  let a := sample 0 "Alfa 1" "North" 200 in
  let b := sample 1 "Alfa 2" "South" 200 in
  let c := sample 2 "Alfa 3" "North" 100 in
  revenueMaximizationSelection [a; b; c] (mkTarget 2) = ([a; b], [a; b; c]).
Proof.
  intros a b c.
  apply (revenue_focus_on_sorted [a; b; c] 2).
  - lia.
  - apply Sorted_cons; [apply Sorted_cons; [apply Sorted_cons |] |].
    + apply Sorted_nil.
    + apply HdRel_nil.
    + apply HdRel_cons. vm_compute. discriminate.
    + apply HdRel_cons. vm_compute. discriminate.
Defined.

(** Revenue focus is stable under self-restriction: run again on its own
    selection with the size of that selection as target, it returns the
    selection unchanged, for every first target. *)
Theorem revenue_focus_idempotent (stores : list StoreData)
  (targetConfig : TargetConfig) :
  let selected := fst (revenueMaximizationSelection stores targetConfig) in
  revenueMaximizationSelection selected (mkTarget (len selected))
  = (selected, selected).
Proof.
  intros selected.
  assert (Hs : StronglySorted (ge_key prodSelect) selected).
  { unfold selected, revenueMaximizationSelection. cbn [fst].
    apply strongly_sorted_slice. apply sort_desc_strongly_sorted. }
  unfold revenueMaximizationSelection at 1. cbn [total].
  change by_revenue_desc with (desc prodSelect).
  rewrite (sort_sorted_id prodSelect selected (StronglySorted_Sorted Hs)).
  f_equal. apply slice_all. unfold len. lia.
Qed.

(** For a target that is not negative revenue focus returns exactly
    [min(target, |stores|)] records, and the array it was called on is
    afterwards a rearrangement of the same records in descending order of
    revenue: nothing is lost or added. *)
Theorem revenue_focus_effect (stores : list StoreData) (target : Z) :
  (0 <= target)%Z ->
  let r := revenueMaximizationSelection stores (mkTarget target) in
  len (fst r) = Z.min target (len stores)
  /\ Permutation (snd r) stores
  /\ StronglySorted (fun a b => (prodSelect b <= prodSelect a)%Q) (snd r)
  /\ fst r = firstn (Z.to_nat target) (snd r).
Proof.
  intros Ht. unfold revenueMaximizationSelection. cbn [fst snd total].
  split; [| split; [| split]].
  - unfold len. rewrite slice_from_0, length_firstn, sort_length by lia. lia.
  - apply sort_perm.
  - apply (sort_desc_strongly_sorted prodSelect).
  - now apply slice_from_0.
Qed.

Lemma revenue_focus_effect_witness :
  let r := revenueMaximizationSelection ten_stores (mkTarget 12) in
  len (fst r) = Z.min 12 (len ten_stores) /\ Permutation (snd r) ten_stores.
Proof.
  intros r.
  destruct (revenue_focus_effect ten_stores 12) as (Hlen & Hperm & _);
    [lia |].
  split; [exact Hlen | exact Hperm].
Defined.

(** ** Geographic distribution: the iteration cap and few slots *)

Lemma slice_length_le {A : Type} (l : list A) (s e : Z) :
  length (slice l s e) <= length l.
Proof.
  destruct (slice_split l s e) as (pre & post & E).
  rewrite E at 2. rewrite !length_app. lia.
Qed.

Lemma geo_first_fold_length (stores : list StoreData) (target : Z)
  (rs : list string) :
  forall acc,
    length (fold_left (geo_first_step target (groupStoresByRegion stores))
              rs acc)
    <= length acc + length rs.
Proof.
  induction rs as [| r rs IH]; intros acc; simpl; [lia |].
  specialize (IH (geo_first_step target (groupStoresByRegion stores) acc r)).
  destruct (geo_first_step_spec stores target acc r) as [E | (b & E & _)];
    rewrite E in *; [| rewrite length_app in IH; simpl in IH]; lia.
Qed.

Lemma round_robin_length (fuel : nat) (rs : list string) (target : Z) :
  forall i sel avail,
    length (round_robin fuel rs target i sel avail) <= length sel + fuel.
Proof.
  induction fuel as [| fuel IH]; intros i sel avail; cbn [round_robin]; [lia |].
  destruct (len sel <? target)%Z; [| lia].
  set (taken := match nth_error rs (i mod length rs) with
                | Some region => _
                | None => _
                end).
  assert (Htaken : length (fst taken) <= S (length sel)).
  { unfold taken. destruct (nth_error rs (i mod length rs)) as [r |];
      [| simpl; lia].
    destruct (lookup r avail) as [[| s rest] |]; simpl; try lia.
    rewrite length_app. simpl. lia. }
  destruct (length rs * 10 <? S i); [lia |].
  specialize (IH (S i) (fst taken) (snd taken)). lia.
Qed.

(** Geographic distribution never returns more than [11 * R + 1] records,
    [R] the number of distinct regions, whatever the target and however
    many candidates there are: the first loop adds at most one record per
    region and the round robin stops after [10 * R + 1] turns. *)
Theorem geographic_iteration_cap (stores : list StoreData)
  (targetConfig : TargetConfig) :
  length (fst (geographicDistributionSelection stores targetConfig))
  <= 11 * length (distinct (map fieldSalesRegio stores)) + 1.
Proof.
  unfold geographicDistributionSelection. cbn [fst].
  set (target := total targetConfig).
  set (regions := distinct (map fieldSalesRegio stores)).
  set (first := geo_first_pass target (groupStoresByRegion stores) regions).
  assert (Hfirst : length first <= length regions).
  { unfold first, geo_first_pass.
    pose proof (geo_first_fold_length stores target regions []) as H.
    simpl in H. exact H. }
  etransitivity; [apply slice_length_le |].
  destruct (0 <? target - len first)%Z; [| lia].
  etransitivity; [apply round_robin_length |]. lia.
Qed.

(** The cap is reached: fourteen stores of one region and target 14 give
    twelve records. *)
Remark geographic_cap_reached :
  let stores := map (fun i => sample i "Alfa" "North" 100) (seq 0 14) in
  length (fst (geographicDistributionSelection stores (mkTarget 14))) = 12.
Proof. vm_compute. reflexivity. Qed.

Lemma fold_better_max (rest : list StoreData) :
  forall s,
    (prodSelect s <= prodSelect (fold_left better rest s))%Q
    /\ forall t, In t rest ->
         (prodSelect t <= prodSelect (fold_left better rest s))%Q.
Proof.
  induction rest as [| y rest IH]; intros s; simpl.
  - split; [lra | contradiction].
  - destruct (IH (better s y)) as [Hb Hrest].
    assert (Hsy : (prodSelect s <= prodSelect (better s y))%Q
                  /\ (prodSelect y <= prodSelect (better s y))%Q).
    { unfold better, Qlt_bool.
      destruct (Qle_bool (prodSelect y) (prodSelect s)) eqn:E; simpl.
      - apply Qle_bool_iff in E. split; lra.
      - assert (~ (prodSelect y <= prodSelect s)%Q)
          by (intros Hle; apply Qle_bool_iff in Hle; congruence).
        split; lra. }
    split; [lra |].
    intros t [<- | Ht]; [lra | now apply Hrest].
Qed.

Lemma geo_first_step_best (stores : list StoreData) (target : Z)
  (sel : list StoreData) (r : string) :
  geo_first_step target (groupStoresByRegion stores) sel r = sel
  \/ exists b,
       geo_first_step target (groupStoresByRegion stores) sel r = sel ++ [b]
       /\ In b stores /\ fieldSalesRegio b = r
       /\ forall t, In t stores -> fieldSalesRegio t = r ->
                    (prodSelect t <= prodSelect b)%Q.
Proof.
  unfold geo_first_step.
  destruct (lookup r (groupStoresByRegion stores)) as [g |] eqn:El;
    [| now left].
  destruct ((0 <? length g) && (len sel <? target)%Z); [| now left].
  apply lookup_group_by in El. destruct El as [E _].
  destruct g as [| s rest]; [now left |].
  right. exists (reduce1 better s rest). cbn [best_of].
  pose proof (reduce1_better_In s rest) as Hin. rewrite E in Hin.
  apply with_key_In in Hin. destruct Hin as [Hin Hreg].
  repeat split; auto.
  intros t Ht Htr.
  assert (Htg : In t (s :: rest))
    by (rewrite E; apply with_key_In; now split).
  destruct (fold_better_max rest s) as [Hs Hrest].
  unfold reduce1. destruct Htg as [<- | Htg]; [exact Hs | now apply Hrest].
Qed.

Lemma geo_first_step_full (stores : list StoreData) (target : Z)
  (sel : list StoreData) (r : string) :
  (target <= len sel)%Z ->
  geo_first_step target (groupStoresByRegion stores) sel r = sel.
Proof.
  intros Hfull. unfold geo_first_step.
  assert (E : (len sel <? target)%Z = false) by (apply Z.ltb_ge; exact Hfull).
  rewrite E, andb_false_r. reflexivity.
Qed.

Lemma geo_first_fold_best (stores : list StoreData) (target : Z)
  (rs : list string) :
  forall acc,
    NoDup rs ->
    (forall r, In r rs -> In r (map fieldSalesRegio stores)) ->
    (len acc <= target)%Z ->
    NoDup (map fieldSalesRegio acc) ->
    (forall s, In s acc -> ~ In (fieldSalesRegio s) rs) ->
    (forall s, In s acc -> best_in_region stores s) ->
    let res :=
      fold_left (geo_first_step target (groupStoresByRegion stores)) rs acc in
    len res = Z.min target (len acc + Z.of_nat (length rs))
    /\ NoDup (map fieldSalesRegio res)
    /\ forall s, In s res -> best_in_region stores s.
Proof.
  induction rs as [| r rs IH]; intros acc Hrs Hpres Hlen Hnd Hfresh Hbest.
  - simpl. split; [lia | split; assumption].
  - inversion Hrs as [| ? ? Hr Hrs']; subst. cbn [fold_left length].
    assert (Hpres' : forall r', In r' rs -> In r' (map fieldSalesRegio stores))
      by (intros r' Hr'; apply Hpres; now right).
    destruct (Z.eq_dec (len acc) target) as [Efull | Hroom].
    + rewrite geo_first_step_full by lia.
      destruct (IH acc) as (H1 & H2 & H3); auto.
      { intros s Hs Hin. apply (Hfresh s Hs). now right. }
      split; [rewrite H1; lia | split; assumption].
    + destruct (geo_first_step_takes stores target acc r)
        as (b & E & Hb & Hreg); [apply Hpres; now left | lia |].
      destruct (geo_first_step_best stores target acc r)
        as [E' | (b' & E' & Hb' & Hreg' & Hmax)].
      { rewrite E in E'. apply (f_equal (@length _)) in E'.
        rewrite length_app in E'. simpl in E'. lia. }
      rewrite E in E'. apply app_inv_head in E'. injection E' as <-.
      rewrite E.
      destruct (IH (acc ++ [b])) as (H1 & H2 & H3); auto.
      * unfold len in *. rewrite length_app. simpl. lia.
      * rewrite map_app. simpl. apply NoDup_app; auto.
        -- repeat constructor. intros [].
        -- intros x Hx [Ex | []]. subst x.
           apply in_map_iff in Hx. destruct Hx as (s & Es & Hs).
           apply (Hfresh s Hs). left. congruence.
      * intros s Hs Hin. apply in_app_or in Hs.
        destruct Hs as [Hs | [<- | []]].
        -- apply (Hfresh s Hs). now right.
        -- congruence.
      * intros s Hs. apply in_app_or in Hs.
        destruct Hs as [Hs | [<- | []]]; [now apply Hbest |].
        split; [exact Hb |]. intros t Ht Htr. apply Hmax; congruence.
      * split; [| split; assumption].
        rewrite H1. unfold len. rewrite length_app. simpl. lia.
Qed.

(** Geographic distribution with no more slots than regions
    ([0 <= target <= R]), on candidates for which [groupStoresByRegion]
    returns (no region names a member of [Object.prototype]), returns
    exactly [target] records, no two of the same region, each the best of
    its region. *)
Theorem geographic_few_slots (stores : list StoreData) (target : Z) :
  plain_regions stores ->
  (0 <= target)%Z ->
  (target <= Z.of_nat (length (distinct (map fieldSalesRegio stores))))%Z ->
  let selected :=
    fst (geographicDistributionSelection stores (mkTarget target)) in
  len selected = target
  /\ NoDup (map fieldSalesRegio selected)
  /\ forall s, In s selected -> best_in_region stores s.
Proof.
  intros _ H0 Hfew.
  unfold geographicDistributionSelection. cbn [fst total].
  set (regions := distinct (map fieldSalesRegio stores)) in *.
  set (first := geo_first_pass target (groupStoresByRegion stores) regions).
  destruct (geo_first_fold_best stores target regions []) as (Hlen & Hnd & Hb).
  { apply distinct_NoDup. }
  { intros r Hr. exact (proj1 (distinct_In _ r) Hr). }
  { unfold len. simpl. lia. }
  { constructor. }
  { intros s []. }
  { intros s []. }
  fold (geo_first_pass target (groupStoresByRegion stores) regions)
    in Hlen, Hnd, Hb.
  fold first in Hlen, Hnd, Hb.
  assert (Hlen' : len first = target) by (rewrite Hlen; unfold len; simpl; lia).
  rewrite Hlen', Z.sub_diag. cbn [Z.ltb Z.compare].
  rewrite slice_all by (unfold len in Hlen'; lia).
  auto.
Qed.

Lemma geographic_few_slots_witness :
  let selected :=
    fst (geographicDistributionSelection ten_stores (mkTarget 1)) in
  len selected = 1%Z /\ forall s, In s selected -> best_in_region ten_stores s.
Proof.
  intros selected.
  destruct (geographic_few_slots ten_stores 1) as (Hlen & _ & Hbest).
  - exact ten_stores_plain.
  - lia.
  - vm_compute. discriminate.
  - split; assumption.
Defined.

(** ** Growth potential: the top of the ranking is out of reach *)

Lemma firstn_incl_le {A : Type} (l : list A) (m n : nat) :
  m <= n -> incl (firstn m l) (firstn n l).
Proof.
  revert m n. induction l as [| x l IH]; intros m n Hmn.
  - rewrite !firstn_nil. apply incl_refl.
  - destruct m as [| m]; [intros y [] |].
    destruct n as [| n]; [lia |]. simpl.
    intros y [<- | Hy]; [now left | right].
    apply (IH m n); [lia | exact Hy].
Qed.

Lemma firstn_skipn_incl {A : Type} (k c : nat) :
  forall l : list A, incl (firstn c (skipn k l)) (firstn (k + c) l).
Proof.
  induction k as [| k IH]; intros l; simpl; [apply incl_refl |].
  destruct l as [| x l]; [rewrite firstn_nil; intros y [] |].
  intros y Hy. right. now apply IH.
Qed.

Lemma slice_in_prefix {A : Type} (l : list A) (a b : nat) :
  incl (slice l (Z.of_nat a) (Z.of_nat b)) (firstn b l).
Proof.
  unfold slice.
  destruct (Z.of_nat a <? 0)%Z eqn:Ea; [apply Z.ltb_lt in Ea; lia |].
  destruct (Z.of_nat b <? 0)%Z eqn:Eb; [apply Z.ltb_lt in Eb; lia |].
  set (k := Z.to_nat (Z.min (Z.of_nat a) (Z.of_nat (length l)))).
  set (c := Z.to_nat _).
  destruct c as [| c'] eqn:Ec; [intros y [] |].
  rewrite <- Ec. intros y Hy.
  apply (firstn_incl_le l (k + c) b); [unfold c, k in *; lia |].
  now apply firstn_skipn_incl.
Qed.

(** Growth potential never selects from the top of the ranking: with the
    candidates sorted by ascending revenue and [b = floor(n * 0.7)], every
    selected record is among the first [b], so at most [b] records come
    back, fewer than there are candidates, however large the target. *)
Theorem growth_excludes_top `{Rounding} (stores : list StoreData)
  (targetConfig : TargetConfig) :
  NoDup (map ref stores) ->
  let b := floor_mul (length stores) (7 # 10) in
  let selected := fst (growthPotentialSelection stores targetConfig) in
  incl selected (firstn b (sort by_revenue_asc stores))
  /\ length selected <= b
  /\ (stores <> [] -> length selected < length stores).
Proof.
  intros Hrefs b selected.
  assert (Hn : NoDup stores) by exact (NoDup_map_inv ref stores Hrefs).
  set (sorted := sort by_revenue_asc stores).
  assert (Hns : NoDup sorted) by now apply sort_NoDup.
  assert (Hlen : length sorted = length stores) by apply sort_length.
  assert (Hsel : NoDup selected /\ incl selected (firstn b sorted)).
  { unfold selected, growthPotentialSelection. cbn [fst].
    fold sorted. rewrite Hlen. fold b.
    set (target := total targetConfig).
    set (a := floor_mul (length stores) (2 # 10)).
    assert (Hab : a <= b) by (apply floor_mul_mono; discriminate).
    set (pool := if (len (slice sorted (Z.of_nat a) (Z.of_nat b)) <? target)%Z
                 then _ else _).
    assert (Hpool : NoDup pool /\ incl pool (firstn b sorted)).
    { unfold pool. destruct (_ <? target)%Z.
      - split; [now apply slice_middle_then_prefix |].
        apply incl_app; [apply slice_in_prefix |].
        rewrite slice_from_0, Nat2Z.id by lia. now apply firstn_incl_le.
      - split; [now apply slice_NoDup | apply slice_in_prefix]. }
    destruct Hpool as [Hnp Hip].
    assert (Hsound : sound pool
              (growth_second_pass target pool
                 (fst (growth_first_pass target pool)))).
    { apply growth_second_fold; [apply incl_refl |].
      apply growth_first_fold. split; simpl; [exact Hnp | apply incl_refl]. }
    apply (sound_slice pool _ 0 target) in Hsound.
    destruct Hsound as [Hnd Hin]. split; [exact Hnd |].
    intros x Hx. now apply Hip, Hin. }
  destruct Hsel as [Hnd Hin].
  assert (Hle : length selected <= b).
  { etransitivity; [apply (NoDup_incl_length Hnd Hin) |].
    rewrite length_firstn. lia. }
  split; [exact Hin | split; [exact Hle |]].
  intros Hne.
  assert (Hb : b < length stores).
  { apply floor_mul_lt; [| reflexivity].
    destruct stores; [congruence | simpl; lia]. }
  lia.
Qed.

Lemma growth_excludes_top_witness :
  length (fst (growthPotentialSelection ten_stores (mkTarget 10))) <= 7.
Proof.
  assert (Hrefs : NoDup (map ref ten_stores))
    by (change (NoDup (seq 0 10)); apply seq_NoDup).
  destruct (growth_excludes_top ten_stores (mkTarget 10) Hrefs)
    as (_ & Hle & _).
  exact Hle.
Defined.

(** ** When a record is selected *)

Lemma Qnat_succ_nonzero (n : nat) : Qeq_bool (Qnat (S n)) 0 = false.
Proof.
  destruct (Qeq_bool (Qnat (S n)) 0) eqn:E; [| reflexivity].
  apply Qeq_bool_eq in E. unfold Qnat, Qeq in E. simpl in E. lia.
Qed.

Lemma slice_nonempty {A : Type} (l : list A) (e : Z) :
  l <> [] -> (1 <= e)%Z -> slice l 0 e <> [].
Proof.
  intros Hl He. rewrite slice_from_0 by lia.
  destruct l as [| x l]; [congruence |].
  destruct (Z.to_nat e) eqn:E; [lia | discriminate].
Qed.

Lemma sort_nonempty {A : Type} (cmp : A -> A -> Q) (l : list A) :
  l <> [] -> sort cmp l <> [].
Proof.
  intros Hl Hs. apply (f_equal (@length _)) in Hs.
  rewrite sort_length in Hs. destruct l; [congruence | discriminate].
Qed.

Lemma app_nonempty_l {A : Type} (l ext : list A) : l <> [] -> l ++ ext <> [].
Proof. destruct l; [congruence | discriminate]. Qed.

Lemma geo_first_fold_prefix (stores : list StoreData) (target : Z)
  (rs : list string) :
  forall acc,
    exists ext,
      fold_left (geo_first_step target (groupStoresByRegion stores)) rs acc
      = acc ++ ext.
Proof.
  induction rs as [| r rs IH]; intros acc; simpl.
  - exists []. now rewrite app_nil_r.
  - destruct (geo_first_step_spec stores target acc r) as [-> | (b & -> & _)].
    + apply IH.
    + destruct (IH (acc ++ [b])) as (ext & ->).
      exists (b :: ext). now rewrite <- app_assoc.
Qed.

Lemma geographic_nonempty (stores : list StoreData) (target : Z) :
  stores <> [] -> (1 <= target)%Z ->
  fst (geographicDistributionSelection stores (mkTarget target)) <> [].
Proof.
  intros Hne Ht. unfold geographicDistributionSelection. cbn [fst total].
  set (regions := distinct (map fieldSalesRegio stores)).
  set (first := geo_first_pass target (groupStoresByRegion stores) regions).
  assert (Hfirst : first <> []).
  { destruct stores as [| s0 rest]; [congruence |].
    unfold first, geo_first_pass, regions, distinct.
    cbn [map distinct_from existsb].
    cbn [fold_left].
    destruct (geo_first_step_takes (s0 :: rest) target [] (fieldSalesRegio s0))
      as (b & E & _); [now left | unfold len; simpl; lia |].
    rewrite E.
    destruct (geo_first_fold_prefix (s0 :: rest) target
                (distinct_from [fieldSalesRegio s0] (map fieldSalesRegio rest))
                ([] ++ [b])) as (ext & ->).
    discriminate. }
  apply slice_nonempty; [| exact Ht].
  destruct (0 <? target - len first)%Z; [| exact Hfirst].
  destruct (round_robin_spec (length regions * 10 + 1) regions target 0 first
              (sort_groups regions
                 (groupStoresByRegion
                    (filter (fun store => negb (includes first store))
                       stores))))
    as ((ext & ->) & _).
  now apply app_nonempty_l.
Qed.

Lemma In_assign {V : Type} (k k' : string) (v v' : V) (d : list (string * V)) :
  In (k, v) (assign k' v' d) -> (k, v) = (k', v') \/ In (k, v) d.
Proof.
  induction d as [| [k1 v1] d IH]; simpl.
  - intros [E | []]. now left.
  - destruct (String.eqb k' k1); simpl.
    + intros [E | Hin]; [now left | right; now right].
    + intros [E | Hin]; [right; now left |].
      destruct (IH Hin) as [E | Hd]; [now left | right; now right].
Qed.

Lemma group_by_groups_nonempty (key : StoreData -> string)
  (l : list StoreData) (k : string) (g : list StoreData) :
  In (k, g) (group_by key l) -> g <> [].
Proof.
  unfold group_by.
  assert (Hgen : forall d, (forall k g, In (k, g) d -> g <> []) ->
            forall k g, In (k, g) (fold_left (group_push key) l d) -> g <> []).
  { induction l as [| x l IH]; intros d Hd; simpl; [exact Hd |].
    apply IH. intros k' g' Hin. rewrite group_push_assign in Hin.
    apply In_assign in Hin. destruct Hin as [E | Hin]; [| now apply (Hd k')].
    injection E as _ ->. destruct (lookup (key x) d) as [g0 |].
    - destruct g0; discriminate.
    - discriminate. }
  apply Hgen. intros k' g' [].
Qed.

Lemma group_by_nonempty (key : StoreData -> string) (l : list StoreData) :
  l <> [] -> group_by key l <> [].
Proof.
  intros Hl Hg. apply (f_equal (map fst)) in Hg.
  rewrite group_by_keys in Hg.
  destruct l as [| x l]; [congruence | discriminate].
Qed.

Lemma market_loop_prefix `{Rounding} (target : Z) (n : nat)
  (ds : list RegionDensity) :
  forall sel, exists ext, market_loop target n ds sel = sel ++ ext.
Proof.
  induction ds as [| d ds IH]; intros sel; simpl.
  - exists []. now rewrite app_nil_r.
  - destruct (target <=? len sel)%Z; [exists []; now rewrite app_nil_r |].
    match goal with
    | |- exists ext, market_loop _ _ _ (sel ++ ?top) = _ =>
        destruct (IH (sel ++ top)) as (ext & ->); exists (top ++ ext)
    end.
    now rewrite app_assoc.
Qed.

Lemma market_nonempty `{Rounding} (stores : list StoreData) (target : Z) :
  stores <> [] -> (1 <= target)%Z ->
  fst (marketPenetrationSelection stores (mkTarget target)) <> [].
Proof.
  intros Hne Ht. unfold marketPenetrationSelection. cbn [fst total].
  apply slice_nonempty; [| exact Ht].
  set (groups := entries (groupStoresByRegion stores)).
  assert (Hg : map density_of groups <> []).
  { intros E. apply map_eq_nil in E.
    apply (group_by_nonempty fieldSalesRegio stores Hne).
    apply Permutation_nil. rewrite <- E. apply entries_perm. }
  pose proof (sort_nonempty by_density _ Hg) as Hs.
  destruct (sort by_density (map density_of groups)) as [| d ds] eqn:Es;
    [congruence |].
  assert (Hd : rd_stores d <> []).
  { assert (Hin : In d (map density_of groups)).
    { apply (sort_In by_density). rewrite Es. now left. }
    apply in_map_iff in Hin. destruct Hin as ([k g] & <- & Hkg).
    unfold groups in Hkg. apply (proj1 (entries_In _ _)) in Hkg.
    simpl. exact (group_by_groups_nonempty _ _ _ _ Hkg). }
  cbn [market_loop].
  assert (E : (target <=? len [])%Z = false)
    by (apply Z.leb_gt; unfold len; simpl; lia).
  rewrite E.
  match goal with
  | |- market_loop _ _ _ ([] ++ ?top) <> [] =>
      assert (Htop : top <> []);
      [| destruct (market_loop_prefix target (length stores) ds ([] ++ top))
           as (ext & ->); simpl; now apply app_nonempty_l]
  end.
  apply slice_nonempty; [now apply sort_nonempty | lia].
Qed.

Lemma demographic_loop_prefix `{Rounding} (target : Z)
  (segs : list SegmentPerformance) :
  forall sel, exists ext, demographic_loop target segs sel = sel ++ ext.
Proof.
  induction segs as [| seg segs IH]; intros sel; simpl.
  - exists []. now rewrite app_nil_r.
  - destruct (target <=? len sel)%Z; [exists []; now rewrite app_nil_r |].
    match goal with
    | |- exists ext, demographic_loop _ _ (sel ++ ?top) = _ =>
        destruct (IH (sel ++ top)) as (ext & ->); exists (top ++ ext)
    end.
    now rewrite app_assoc.
Qed.

Lemma demographic_nonempty `{Rounding} (stores : list StoreData) (target : Z) :
  stores <> [] -> (1 <= target)%Z ->
  fst (demographicTargetingSelection stores (mkTarget target)) <> [].
Proof.
  intros Hne Ht. unfold demographicTargetingSelection. cbn [fst total].
  apply slice_nonempty; [| exact Ht].
  set (groups := entries (group_by demographic_key stores)).
  assert (Hg : map segment_of groups <> []).
  { intros E. apply map_eq_nil in E.
    apply (group_by_nonempty demographic_key stores Hne).
    apply Permutation_nil. rewrite <- E. apply entries_perm. }
  pose proof (sort_nonempty by_avg_revenue _ Hg) as Hs.
  destruct (sort by_avg_revenue (map segment_of groups)) as [| seg segs] eqn:Es;
    [congruence |].
  assert (Hd : seg_stores seg <> []).
  { assert (Hin : In seg (map segment_of groups)).
    { apply (sort_In by_avg_revenue). rewrite Es. now left. }
    apply in_map_iff in Hin. destruct Hin as ([k g] & <- & Hkg).
    unfold groups in Hkg. apply (proj1 (entries_In _ _)) in Hkg.
    simpl. apply sort_nonempty.
    exact (group_by_groups_nonempty _ _ _ _ Hkg). }
  cbn [demographic_loop].
  assert (E : (target <=? len [])%Z = false)
    by (apply Z.leb_gt; unfold len; simpl; lia).
  rewrite E.
  match goal with
  | |- demographic_loop _ _ ([] ++ ?top) <> [] =>
      assert (Htop : top <> []);
      [| destruct (demographic_loop_prefix target segs ([] ++ top))
           as (ext & ->); simpl; now apply app_nonempty_l]
  end.
  apply slice_nonempty; [exact Hd | unfold len; simpl; lia].
Qed.

Lemma dispatch_other `{Rounding} (strategy : SelectionStrategy)
  (stores : list StoreData) (targetConfig : TargetConfig) :
  strategy <> "growth-opportunities"%string ->
  strategy <> "portfolio-balance"%string ->
  In (dispatch strategy stores targetConfig)
    [ revenueMaximizationSelection stores targetConfig;
      geographicDistributionSelection stores targetConfig;
      marketPenetrationSelection stores targetConfig;
      demographicTargetingSelection stores targetConfig ].
Proof.
  intros Hg Hp. unfold dispatch.
  repeat match goal with
         | |- context [String.eqb strategy ?id] =>
             destruct (String.eqb_spec strategy id)
         end; try congruence; simpl; tauto.
Qed.

(** [selectStores] with a target of at least one and a non-empty working
    set, no region of which names a member of [Object.prototype], selects at
    least one record, so that the divisor of the average revenue is not
    zero, for every strategy identifier other than growth-opportunities and
    portfolio-balance (unknown identifiers included). *)
Theorem select_takes_a_record `{Rounding} (stores : list StoreData)
  (strategy : SelectionStrategy) (target : Z)
  (filteredStores : option (list StoreData)) :
  strategy <> "growth-opportunities"%string ->
  strategy <> "portfolio-balance"%string ->
  working stores filteredStores <> [] ->
  plain_regions (working stores filteredStores) ->
  (1 <= target)%Z ->
  let r :=
    fst (selectStores stores strategy (mkTarget target) filteredStores) in
  selectedStores r <> [] /\ 1 <= totalStores (statistics r).
Proof.
  intros Hg Hp Hw _ Ht. unfold selectStores.
  set (ws := working stores filteredStores) in *.
  destruct ws as [| w0 wrest] eqn:Ews; [congruence |].
  rewrite <- Ews in *. replace (length ws =? 0) with false
    by (rewrite Ews; reflexivity).
  assert (Hsel : fst (dispatch strategy ws (mkTarget target)) <> []).
  { destruct (dispatch_other strategy ws (mkTarget target) Hg Hp)
      as [<- | [<- | [<- | [<- | []]]]].
    - unfold revenueMaximizationSelection. cbn [fst total].
      apply slice_nonempty; [now apply sort_nonempty | exact Ht].
    - now apply geographic_nonempty.
    - now apply market_nonempty.
    - now apply demographic_nonempty. }
  destruct (dispatch strategy ws (mkTarget target)) as [selected ws'].
  cbn [fst] in *. split; [exact Hsel |].
  destruct selected as [| s rest]; [congruence |].
  unfold generateResult. cbn [statistics totalStores length]. lia.
Qed.

Lemma select_takes_a_record_witness :
  selectedStores
    (fst (selectStores ten_stores "market-penetration" (mkTarget 3) None))
  <> [].
Proof.
  apply (select_takes_a_record ten_stores "market-penetration" 3 None).
  - discriminate.
  - discriminate.
  - discriminate.
  - exact ten_stores_plain.
  - lia.
Defined.

(** ** Regional statistics of a result *)

(** [generateResult] on a selection no region of which names a member of
    [Object.prototype]: [Object.keys(revenuePerRegion)] lists exactly the
    regions of the selection, each once, those that are array indices first
    in ascending numeric order and the others in the order in which they
    first occur, and [uniqueRegions] is the number of these keys. *)
Theorem revenue_per_region_spec `{Rounding}
  (selected allStores : list StoreData) :
  plain_regions selected ->
  let st := statistics (generateResult selected allStores) in
  let keys := map fst (entries (revenuePerRegion st)) in
  let regions := distinct (map fieldSalesRegio selected) in
  NoDup keys
  /\ (forall region,
        In region keys <-> In region (map fieldSalesRegio selected))
  /\ (exists indices,
        keys = indices ++ filter (fun k => negb (is_index k)) regions
        /\ Forall (fun k => is_index k = true) indices
        /\ StronglySorted (fun a b => (index_value a <= index_value b)%Q)
             indices)
  /\ uniqueRegions st = length keys.
Proof.
  intros _ st keys regions.
  assert (Hrev : revenuePerRegion st = revenue_per_region selected)
    by reflexivity.
  assert (Hcount : uniqueRegions st = length regions) by reflexivity.
  unfold keys. rewrite Hrev, Hcount. clear Hrev Hcount keys.
  set (keys := map fst (entries (revenue_per_region selected))).
  assert (Hkeys : map fst (revenue_per_region selected) = regions).
  { unfold revenue_per_region, regions, distinct.
    apply (keys_fold_assign fieldSalesRegio
             (fun d store =>
                ((match lookup (fieldSalesRegio store) d with
                  | Some r => r
                  | None => 0%Q
                  end) + prodSelect store)%Q) selected []). }
  assert (Hperm : Permutation keys regions).
  { unfold keys. rewrite entries_keys_perm. now rewrite Hkeys. }
  split; [| split; [| split]].
  - apply (Permutation_NoDup (Permutation_sym Hperm)), distinct_NoDup.
  - intros region. rewrite <- (distinct_In (map fieldSalesRegio selected)).
    split; apply Permutation_in; [| symmetry]; exact Hperm.
  - unfold keys. rewrite <- Hkeys. apply entries_keys.
  - now rewrite (Permutation_length Hperm).
Qed.

Lemma revenue_per_region_spec_witness :
  uniqueRegions
    (statistics
       (generateResult
          [ sample 0 "Alfa 1" "2" 100; sample 1 "Alfa 2" "West" 200;
            sample 2 "Alfa 3" "1" 300 ] ten_stores))
  = 3.
Proof.
  destruct (revenue_per_region_spec
              [ sample 0 "Alfa 1" "2" 100; sample 1 "Alfa 2" "West" 200;
                sample 2 "Alfa 3" "1" 300 ] ten_stores)
    as (_ & _ & _ & Hcount).
  - apply plain_regions_existsb. vm_compute. reflexivity.
  - rewrite Hcount. vm_compute. reflexivity.
Defined.

Lemma distinct_length_le (l1 l2 : list string) :
  incl l1 l2 -> length (distinct l1) <= length (distinct l2).
Proof.
  intros Hi. apply NoDup_incl_length; [apply distinct_NoDup |].
  intros x Hx.
  apply (proj2 (distinct_In l2 x)), Hi. exact (proj1 (distinct_In l1 x) Hx).
Qed.

Lemma dispatch_snd_perm `{Rounding} (strategy : SelectionStrategy)
  (stores : list StoreData) (targetConfig : TargetConfig) :
  Permutation (snd (dispatch strategy stores targetConfig)) stores.
Proof.
  destruct (dispatch_cases strategy stores targetConfig)
    as [<- | [<- | [<- | [<- | [<- | [<- | []]]]]]];
    try reflexivity; apply sort_perm.
Qed.

Lemma ratio_in_unit (a b : nat) :
  a <= S b ->
  exists q, js_div (Qnat a) (Qnat (S b)) = Num q /\ (0 <= q <= 1)%Q.
Proof.
  intros Hab. unfold js_div. rewrite Qnat_succ_nonzero.
  eexists. split; [reflexivity |].
  assert (Hpos : (0 < Qnat (S b))%Q).
  { unfold Qnat. change 0%Q with (inject_Z 0). rewrite <- Zlt_Qlt. lia. }
  assert (Ha : (0 <= Qnat a)%Q).
  { unfold Qnat. change 0%Q with (inject_Z 0). rewrite <- Zle_Qle. lia. }
  assert (Hle : (Qnat a <= Qnat (S b))%Q).
  { unfold Qnat. rewrite <- Zle_Qle. lia. }
  split.
  - apply Qle_shift_div_l; [exact Hpos | lra].
  - apply Qle_shift_div_r; [exact Hpos | lra].
Qed.

(** [selectStores] on a working set of distinct objects reports a region
    coverage that is a number between 0 and 1. *)
Theorem region_coverage_in_unit `{Rounding} (stores : list StoreData)
  (strategy : SelectionStrategy) (targetConfig : TargetConfig)
  (filteredStores : option (list StoreData)) :
  NoDup (map ref (working stores filteredStores)) ->
  exists q,
    regionCoverage
      (fst (selectStores stores strategy targetConfig filteredStores))
    = Num q
    /\ (0 <= q <= 1)%Q.
Proof.
  intros Hrefs. unfold selectStores.
  set (ws := working stores filteredStores) in *.
  destruct (length ws =? 0) eqn:Elen.
  - exists 0%Q. split; [reflexivity | lra].
  - apply Nat.eqb_neq in Elen.
    pose proof (dispatch_sound strategy ws targetConfig
                  (NoDup_map_inv ref ws Hrefs)) as [_ Hincl].
    pose proof (dispatch_snd_perm strategy ws targetConfig) as Hperm.
    destruct (dispatch strategy ws targetConfig) as [selected ws'].
    cbn [fst snd] in *.
    unfold generateResult. cbn [regionCoverage].
    assert (Hne : distinct (map fieldSalesRegio ws') <> []).
    { destruct ws' as [| w rest].
      - apply Permutation_length in Hperm. simpl in Hperm. lia.
      - discriminate. }
    destruct (length (distinct (map fieldSalesRegio ws'))) as [| b] eqn:Eb.
    + destruct (distinct (map fieldSalesRegio ws'));
        [congruence | discriminate].
    + apply ratio_in_unit. rewrite <- Eb.
      apply distinct_length_le. intros r Hr.
      apply in_map_iff in Hr. destruct Hr as (s & <- & Hs).
      apply in_map. apply (Permutation_in s (Permutation_sym Hperm)).
      now apply Hincl.
Qed.

Lemma region_coverage_in_unit_witness :
  exists q,
    regionCoverage
      (fst (selectStores ten_stores "geographic-coverage" (mkTarget 1) None))
    = Num q
    /\ (0 <= q <= 1)%Q.
Proof.
  apply (region_coverage_in_unit ten_stores "geographic-coverage"
           (mkTarget 1) None).
  change (NoDup (seq 0 10)). apply seq_NoDup.
Defined.

(** ** The histogram never counts a record twice *)

Lemma fold_count_sum (l : list HistogramBin) (a : nat) :
  fold_left (fun sum bin => sum + count bin) l a = a + list_sum (map count l).
Proof.
  revert a. induction l as [| b l IH]; intros a; simpl; [lia |].
  rewrite IH. lia.
Qed.

Lemma indicator_sum_zero {X : Type} (P : nat -> X -> bool) (x : X)
  (idxs : list nat) :
  (forall j, In j idxs -> P j x = false) ->
  list_sum (map (fun i => if P i x then 1 else 0) idxs) = 0.
Proof.
  induction idxs as [| j idxs IH]; intros Hf; simpl; [reflexivity |].
  rewrite (Hf j (or_introl eq_refl)).
  apply IH. intros k Hk. apply Hf. now right.
Qed.

Lemma indicator_sum_le_1 {X : Type} (P : nat -> X -> bool) (x : X)
  (idxs : list nat) :
  NoDup idxs ->
  (forall i j, In i idxs -> In j idxs -> i <> j ->
               P i x = true -> P j x = false) ->
  list_sum (map (fun i => if P i x then 1 else 0) idxs) <= 1.
Proof.
  induction idxs as [| i idxs IH]; intros Hnd Hex; simpl; [lia |].
  inversion Hnd as [| ? ? Hi Hnd']; subst.
  assert (IH' := IH Hnd'
                   (fun a b Ha Hb => Hex a b (or_intror Ha) (or_intror Hb))).
  destruct (P i x) eqn:Ei; [| lia].
  rewrite indicator_sum_zero; [lia |].
  intros j Hj. apply (Hex i j); simpl; auto.
  intros ->. now apply Hi.
Qed.

Lemma exclusive_counts {X : Type} (P : nat -> X -> bool) (idxs : list nat)
  (l : list X) :
  NoDup idxs ->
  (forall i j x, In i idxs -> In j idxs -> i <> j -> In x l ->
                 P i x = true -> P j x = false) ->
  list_sum (map (fun i => length (filter (P i) l)) idxs) <= length l.
Proof.
  intros Hnd. induction l as [| x l IH]; intros Hex.
  - simpl. clear. induction idxs; simpl; lia.
  - assert (Hsplit :
      list_sum (map (fun i => length (filter (P i) (x :: l))) idxs)
      = list_sum (map (fun i => if P i x then 1 else 0) idxs)
        + list_sum (map (fun i => length (filter (P i) l)) idxs)).
    { clear. induction idxs as [| i idxs IHi]; [reflexivity |].
      unfold list_sum in *. cbn [map fold_right]. rewrite IHi.
      cbn [filter]. destruct (P i x); simpl; lia. }
    rewrite Hsplit.
    assert (H1 := indicator_sum_le_1 P x idxs Hnd
                    (fun i j Hi Hj Hij =>
                       Hex i j x Hi Hj Hij (or_introl eq_refl))).
    assert (H2 := IH (fun i j y Hi Hj Hij Hy =>
                        Hex i j y Hi Hj Hij (or_intror Hy))).
    simpl. lia.
Qed.

Lemma fold_Qmin_le (l : list Q) (a : Q) : (fold_left Qmin l a <= a)%Q.
Proof.
  revert a. induction l as [| y l IH]; intros a; simpl; [lra |].
  eapply Qle_trans; [apply IH | apply Q.le_min_l].
Qed.

Lemma fold_Qmax_ge (l : list Q) (a : Q) : (a <= fold_left Qmax l a)%Q.
Proof.
  revert a. induction l as [| y l IH]; intros a; simpl; [lra |].
  eapply Qle_trans; [apply Q.le_max_l | apply IH].
Qed.

Lemma Qnat_le (i j : nat) : i <= j -> (Qnat i <= Qnat j)%Q.
Proof. intros H. unfold Qnat. rewrite <- Zle_Qle. lia. Qed.

(** Bins further to the right start no lower: a record that passes the
    strict upper test of bin [i] fails the lower test of every later
    bin. *)
Lemma bins_exclusive (mn size v : Q) (bins i j : nat) :
  (0 <= size)%Q -> i < j -> j < bins ->
  Qle_bool (mn + Qnat i * size) v
  && (if i =? bins - 1 then Qle_bool v (mn + Qnat (i + 1) * size)
      else Qlt_bool v (mn + Qnat (i + 1) * size)) = true ->
  Qle_bool (mn + Qnat j * size) v
  && (if j =? bins - 1 then Qle_bool v (mn + Qnat (j + 1) * size)
      else Qlt_bool v (mn + Qnat (j + 1) * size)) = false.
Proof.
  intros Hsize Hij Hj Hi.
  destruct (Nat.eqb_spec i (bins - 1)) as [E | _]; [lia |].
  apply andb_true_iff in Hi. destruct Hi as [_ Hlt].
  unfold Qlt_bool in Hlt. apply negb_true_iff in Hlt.
  apply andb_false_iff. left.
  destruct (Qle_bool (mn + Qnat j * size) v) eqn:E; [| reflexivity].
  apply Qle_bool_iff in E.
  assert (Hstep : (Qnat (i + 1) * size <= Qnat j * size)%Q).
  { apply Qmult_le_compat_r; [apply Qnat_le; lia | exact Hsize]. }
  assert (Hle : (mn + Qnat (i + 1) * size <= v)%Q) by lra.
  apply Qle_bool_iff in Hle. congruence.
Qed.

(** However the revenues lie, no record is counted in two bins of the
    histogram: the total that the filter panel computes from the counts
    never exceeds the number of records. *)
Theorem histogram_total_bounded (stores : list StoreData) (bins : nat) :
  totalCount (generateHistogram stores bins) <= length stores.
Proof.
  unfold totalCount. rewrite fold_count_sum. simpl.
  unfold generateHistogram.
  destruct (map prodSelect stores) as [| r rest] eqn:Erev.
  - rewrite map_map. simpl.
    assert (Hz : forall l : list nat, list_sum (map (fun _ => 0) l) = 0)
      by (induction l; simpl; auto).
    rewrite Hz. lia.
  - set (mn := fold_left Qmin rest r). set (mx := fold_left Qmax rest r).
    set (size := ((mx - mn) / Qnat bins)%Q).
    rewrite map_map. cbn [count].
    set (P := fun (i : nat) (store : StoreData) =>
                Qle_bool (mn + Qnat i * size) (prodSelect store)
                && (if i =? bins - 1
                    then Qle_bool (prodSelect store) (mn + Qnat (i + 1) * size)
                    else Qlt_bool (prodSelect store)
                           (mn + Qnat (i + 1) * size))).
    apply (exclusive_counts P (seq 0 bins) stores); [apply seq_NoDup |].
    intros i j x Hi Hj Hij _ HP.
    apply in_seq in Hi. apply in_seq in Hj.
    assert (Hsize : (0 <= size)%Q).
    { assert (Hmm : (mn <= mx)%Q).
      { eapply Qle_trans; [apply fold_Qmin_le | apply fold_Qmax_ge]. }
      assert (Hb : (0 < Qnat bins)%Q).
      { unfold Qnat. change 0%Q with (inject_Z 0). rewrite <- Zlt_Qlt. lia. }
      unfold size. apply Qle_shift_div_l; [exact Hb | lra]. }
    destruct (Nat.lt_ge_cases i j) as [Hlt | Hge].
    + apply (bins_exclusive mn size (prodSelect x) bins i j); auto. lia.
    + assert (Hji : j < i) by lia.
      destruct (P j x) eqn:Ej; [| reflexivity].
      assert (Hcontra := bins_exclusive mn size (prodSelect x) bins j i
                           Hsize Hji (proj2 Hi) Ej).
      unfold P in HP. congruence.
Qed.

(** ** Stores per region ([useTargetMetrics]) *)

Lemma count_fold_lookup (l : list StoreData) :
  forall d p,
    (forall r, lookup r d
               = match with_key fieldSalesRegio r p with
                 | [] => None
                 | g => Some (length g)
                 end) ->
    forall r,
      lookup r
        (fold_left
           (fun acc store =>
              let region := fieldSalesRegio store in
              let old :=
                match lookup region acc with Some n => n | None => 0 end in
              assign region (old + 1) acc)
           l d)
      = match with_key fieldSalesRegio r (p ++ l) with
        | [] => None
        | g => Some (length g)
        end.
Proof.
  induction l as [| x l IH]; intros d p Hd r; simpl.
  - rewrite app_nil_r. apply Hd.
  - replace (p ++ x :: l) with ((p ++ [x]) ++ l) by now rewrite <- app_assoc.
    apply IH. clear r. intros r.
    rewrite lookup_assign, with_key_app. unfold with_key at 2. simpl.
    pose proof (Hd (fieldSalesRegio x)) as Hx.
    destruct (String.eqb_spec r (fieldSalesRegio x)) as [-> | NE].
    + rewrite String.eqb_refl. rewrite Hx.
      destruct (with_key fieldSalesRegio (fieldSalesRegio x) p) as [| s t].
      * reflexivity.
      * simpl. rewrite length_app. reflexivity.
    + destruct (String.eqb_spec (fieldSalesRegio x) r); [congruence |].
      rewrite app_nil_r. apply Hd.
Qed.

Lemma count_assign_sum (k : string) (d : list (string * nat)) :
  list_sum
    (map snd
       (assign k (match lookup k d with Some n => n | None => 0 end + 1) d))
  = list_sum (map snd d) + 1.
Proof.
  induction d as [| [k' n] d IH]; simpl; [reflexivity |].
  destruct (String.eqb k k'); simpl; [lia |].
  rewrite IH. lia.
Qed.

(** The region counts of [useTargetMetrics], on stores no region of which
    names a member of [Object.prototype]: under each region the count is the
    size of the group that [groupStoresByRegion] holds for it (a region
    without store has no key), [Object.keys(storesByRegion).length] is the
    number of distinct regions, and the counts add up to the number of
    stores. *)
Theorem storesByRegion_spec (stores : list StoreData) :
  plain_regions stores ->
  (forall region,
     lookup region (storesByRegion stores)
     = option_map (@length StoreData)
         (lookup region (groupStoresByRegion stores)))
  /\ length (map fst (entries (storesByRegion stores)))
     = length (distinct (map fieldSalesRegio stores))
  /\ list_sum (map snd (storesByRegion stores)) = length stores.
Proof.
  intros _. split; [| split].
  - intros region. unfold storesByRegion.
    etransitivity;
      [apply (count_fold_lookup stores [] [] (fun r => eq_refl) region) |].
    unfold groupStoresByRegion.
    rewrite (group_by_represents fieldSalesRegio stores region). simpl.
    now destruct (with_key fieldSalesRegio region stores).
  - rewrite (Permutation_length (entries_keys_perm (storesByRegion stores))).
    f_equal. unfold storesByRegion, distinct.
    apply (keys_fold_assign fieldSalesRegio
             (fun acc store =>
                match lookup (fieldSalesRegio store) acc with
                | Some n => n
                | None => 0
                end + 1) stores []).
  - unfold storesByRegion.
    assert (Hgen : forall l d,
      list_sum
        (map snd
           (fold_left
              (fun acc store =>
                 let region := fieldSalesRegio store in
                 let old :=
                   match lookup region acc with Some n => n | None => 0 end in
                 assign region (old + 1) acc)
              l d))
      = list_sum (map snd d) + length l).
    { induction l as [| x l IH]; intros d; simpl; [lia |].
      rewrite IH, count_assign_sum. lia. }
    apply (Hgen stores []).
Qed.

Lemma storesByRegion_spec_witness :
  list_sum (map snd (storesByRegion ten_stores)) = 10.
Proof.
  destruct (storesByRegion_spec ten_stores ten_stores_plain) as (_ & _ & Hsum).
  exact Hsum.
Defined.

(** ** The retailer brand of a store name *)

Lemma append_nil_r (s : string) : (s ++ EmptyString)%string = s.
Proof. induction s as [| c s IH]; simpl; congruence. Qed.

Lemma append_assoc (a b c : string) :
  ((a ++ b) ++ c)%string = (a ++ (b ++ c))%string.
Proof. induction a as [| x a IH]; simpl; congruence. Qed.

Lemma prefix_iff (a b : string) :
  String.prefix a b = true <-> exists t, b = (a ++ t)%string.
Proof.
  revert b. induction a as [| x a IH]; intros b.
  - split; [intros _; now exists b | intros _; now destruct b].
  - destruct b as [| y b]; simpl.
    + split; [discriminate | intros (t & E); discriminate].
    + destruct (Ascii.ascii_dec x y) as [<- | NE].
      * rewrite IH. split; intros (t & E); exists t; congruence.
      * split; [discriminate | intros (t & E); congruence].
Qed.

(** [words.join(sep)] on a list of words. *)
Lemma split_on_nonempty (sep : ascii) (s : string) : split_on sep s <> [].
Proof.
  destruct s as [| c s]; simpl; [discriminate |].
  destruct (Ascii.eqb c sep); [discriminate |].
  destruct (split_on sep s); discriminate.
Qed.

Lemma split_on_shape (sep : ascii) (s : string) :
  forall w ws, split_on sep s = w :: ws ->
    contains sep w = false
    /\ match ws with
       | [] => s = w
       | w1 :: ws' =>
           contains sep w1 = false
           /\ exists t, s = (w ++ String sep (w1 ++ t))%string
       end.
Proof.
  induction s as [| c s IH]; intros w ws E; simpl in E.
  - injection E as <- <-. split; reflexivity.
  - destruct (Ascii.eqb_spec c sep) as [-> | NE].
    + injection E as <- <-. split; [reflexivity |].
      pose proof (split_on_nonempty sep s) as Hne.
      destruct (split_on sep s) as [| w1 ws'] eqn:Es; [congruence |].
      destruct (IH w1 ws' eq_refl) as [Hw1 Hrest]. split; [exact Hw1 |].
      destruct ws' as [| w2 ws''].
      * exists EmptyString. simpl. now rewrite append_nil_r, Hrest.
      * destruct Hrest as (_ & t & ->).
        exists (String sep (w2 ++ t)). reflexivity.
    + pose proof (split_on_nonempty sep s) as Hne.
      destruct (split_on sep s) as [| w0 ws0] eqn:Es; [congruence |].
      injection E as <- <-.
      destruct (IH w0 ws0 eq_refl) as [Hw0 Hrest]. split.
      * simpl. rewrite Hw0.
        destruct (Ascii.eqb_spec c sep); [congruence | reflexivity].
      * destruct ws0 as [| w1 ws'].
        -- now rewrite Hrest.
        -- destruct Hrest as (Hw1 & t & ->). split; [exact Hw1 |].
           now exists t.
Qed.

Lemma split_on_word (sep : ascii) (w : string) :
  contains sep w = false -> split_on sep w = [w].
Proof.
  induction w as [| c w IH]; simpl; [reflexivity |].
  intros H. apply orb_false_iff in H. destruct H as [Hc Hw].
  rewrite Hc, (IH Hw). reflexivity.
Qed.

Lemma split_on_two_words (sep : ascii) (w0 w1 : string) :
  contains sep w0 = false -> contains sep w1 = false ->
  split_on sep (w0 ++ String sep w1) = [w0; w1].
Proof.
  intros H0 H1. induction w0 as [| c w0 IH]; simpl.
  - rewrite Ascii.eqb_refl, (split_on_word sep w1 H1). reflexivity.
  - simpl in H0. apply orb_false_iff in H0. destruct H0 as [Hc Hw].
    rewrite Hc, (IH Hw). reflexivity.
Qed.

Lemma find_none_iff {A : Type} (f : A -> bool) (l : list A) :
  find f l = None <-> forall x, In x l -> f x = false.
Proof.
  split; [intros H x; now apply find_none |].
  intros H. destruct (find f l) as [x |] eqn:E; [| reflexivity].
  apply find_some in E. destruct E as [Hin Hf].
  rewrite (H x Hin) in Hf. discriminate.
Qed.

(** [extractRetailerBrand] returns a prefix of the store name: the brand
    never holds text that the name does not start with. *)
Theorem extractRetailerBrand_prefix (storeName : string) :
  String.prefix (extractRetailerBrand storeName) storeName = true.
Proof.
  unfold extractRetailerBrand.
  destruct (find _ knownRetailers) as [r |] eqn:Ef.
  - apply find_some in Ef. apply Ef.
  - apply prefix_iff.
    destruct (split_on " " storeName) as [| w0 [| w1 ws]] eqn:Es.
    + exists EmptyString. now rewrite append_nil_r.
    + destruct (split_on_shape " " storeName w0 [] Es) as [_ ->].
      exists EmptyString.
      destruct (String.eqb w0 EmptyString); now rewrite append_nil_r.
    + destruct (split_on_shape " " storeName w0 (w1 :: ws) Es)
        as (_ & _ & t & ->).
      exists t. rewrite append_assoc. reflexivity.
Qed.

Lemma known_retailer_fixed (r : string) :
  In r knownRetailers -> extractRetailerBrand r = r.
Proof.
  unfold knownRetailers. simpl.
  intros H.
  repeat (destruct H as [<- | H]; [vm_compute; reflexivity |]).
  contradiction.
Qed.

(** [extractRetailerBrand] is idempotent: the brand of a brand is that
    brand, so filtering stores by [extractRetailerBrand(naam) === brand]
    with a brand that the function produced is consistent. *)
Theorem extractRetailerBrand_idempotent (storeName : string) :
  extractRetailerBrand (extractRetailerBrand storeName)
  = extractRetailerBrand storeName.
Proof.
  pose proof (extractRetailerBrand_prefix storeName) as Hpre.
  unfold extractRetailerBrand at 2 3. unfold extractRetailerBrand in Hpre.
  destruct (find _ knownRetailers) as [r |] eqn:Ef.
  - apply known_retailer_fixed. apply find_some in Ef. apply Ef.
  - set (brand := match split_on " " storeName with
                  | [] => storeName
                  | [w0] => _
                  | w0 :: w1 :: _ => _
                  end) in *.
    assert (Hnone : find (fun retailer => String.prefix retailer brand)
                      knownRetailers = None).
    { apply find_none_iff. intros r Hr.
      destruct (String.prefix r brand) eqn:E; [| reflexivity].
      apply prefix_iff in E. destruct E as (t & Et).
      apply prefix_iff in Hpre. destruct Hpre as (t' & Et').
      assert (Hrs : String.prefix r storeName = true).
      { apply prefix_iff. exists (t ++ t')%string.
        rewrite Et', Et. apply append_assoc. }
      rewrite (proj1 (find_none_iff _ _) Ef r Hr) in Hrs. discriminate. }
    unfold extractRetailerBrand. rewrite Hnone.
    unfold brand.
    destruct (split_on " " storeName) as [| w0 [| w1 ws]] eqn:Es.
    + now rewrite Es.
    + destruct (split_on_shape " " storeName w0 [] Es) as [Hw0 E0].
      subst w0.
      destruct (String.eqb storeName EmptyString); rewrite Es;
        destruct (String.eqb storeName EmptyString); reflexivity.
    + destruct (split_on_shape " " storeName w0 (w1 :: ws) Es)
        as (Hw0 & Hw1 & _).
      change (w0 ++ " " ++ w1)%string with (w0 ++ String " " w1)%string.
      rewrite (split_on_two_words " " w0 w1 Hw0 Hw1). reflexivity.
Qed.

(** ** Exported rows read back *)

Lemma parse_open_quote (rest : string) (d : ascii) (cur : string)
  (res : list string) :
  parse_from (String dquote rest) d cur false res
  = parse_from rest d cur true res.
Proof. destruct rest; reflexivity. Qed.

Lemma parse_plain (d : ascii) (v : string) :
  forall tail cur inQuotes res,
    contains dquote v = false ->
    (inQuotes = false -> contains d v = false) ->
    parse_from (v ++ tail) d cur inQuotes res
    = parse_from tail d (cur ++ v) inQuotes res.
Proof.
  induction v as [| c v IH]; intros tail cur q res Hq Hd; simpl.
  - now rewrite append_nil_r.
  - simpl in Hq. apply orb_false_iff in Hq. destruct Hq as [Hc Hv].
    rewrite Hc.
    assert (Hdel : Ascii.eqb c d && negb q = false).
    { destruct q; [apply andb_false_r |].
      specialize (Hd eq_refl). simpl in Hd.
      apply orb_false_iff in Hd. destruct Hd as [-> _]. reflexivity. }
    rewrite Hdel, IH.
    + now rewrite append_assoc.
    + exact Hv.
    + intros ->. specialize (Hd eq_refl). simpl in Hd.
      apply orb_false_iff in Hd. apply Hd.
Qed.

Lemma parse_quoted (d : ascii) (v : string) :
  forall tail cur res,
    no_quote_ahead tail ->
    parse_from (escape_quotes v ++ String dquote tail) d cur true res
    = parse_from tail d (cur ++ v) false res.
Proof.
  induction v as [| c v IH]; intros tail cur res Htail.
  - simpl escape_quotes. simpl append. rewrite append_nil_r.
    destruct tail as [| c t]; [reflexivity |].
    simpl in Htail. cbn [parse_from]. rewrite Ascii.eqb_refl.
    destruct (Ascii.eqb_spec c dquote) as [E | _]; [congruence |].
    reflexivity.
  - simpl escape_quotes.
    destruct (Ascii.eqb_spec c dquote) as [-> | NE].
    + simpl append. cbn [parse_from]. rewrite !Ascii.eqb_refl. simpl andb.
      rewrite IH by exact Htail. now rewrite append_assoc.
    + simpl append. cbn [parse_from].
      destruct (Ascii.eqb_spec c dquote) as [E | _]; [congruence |].
      rewrite andb_false_r, IH by exact Htail. now rewrite append_assoc.
Qed.

Lemma parse_field (v tail : string) (res : list string) :
  no_quote_ahead tail ->
  parse_from (export_field v ++ tail) "," EmptyString false res
  = parse_from tail "," v false res.
Proof.
  intros Htail. unfold export_field.
  destruct (contains "," v || contains dquote v) eqn:E.
  - simpl append. rewrite parse_open_quote, append_assoc. simpl append.
    now rewrite parse_quoted.
  - apply orb_false_iff in E. destruct E as [Hc Hq].
    now rewrite parse_plain.
Qed.

Lemma parse_row (vs : list string) :
  forall v res,
    parse_from (join_comma (map export_field (v :: vs))) "," EmptyString
      false res
    = res ++ map trim (v :: vs).
Proof.
  induction vs as [| v' vs IH]; intros v res.
  - simpl. rewrite <- (append_nil_r (export_field v)).
    rewrite parse_field by exact I. reflexivity.
  - change (join_comma (map export_field (v :: v' :: vs)))
      with (export_field v
              ++ String "," (join_comma (map export_field (v' :: vs))))%string.
    rewrite parse_field by (simpl; discriminate).
    cbn [parse_from]. simpl Ascii.eqb. simpl andb. cbv iota.
    rewrite IH. now rewrite <- app_assoc.
Qed.

(** A row written by [exportToCSV] reads back through [parseCSVLine] as
    the same cells, each trimmed: commas and double quotes inside a cell
    survive the quoting, only white space at the ends of a cell is lost. *)
Theorem csv_row_round_trip (values : list string) :
  values <> [] ->
  parseCSVLine (export_row values) = map trim values.
Proof.
  intros Hne. destruct values as [| v vs]; [congruence |].
  unfold parseCSVLine, parseCSVLineWithDelimiter, export_row.
  apply (parse_row vs v []).
Qed.

Lemma csv_row_round_trip_witness :
  parseCSVLine (export_row ["Jumbo, Centrum"; " 12 "; "1012 JS"]%string)
  = ["Jumbo, Centrum"; "12"; "1012 JS"]%string.
Proof.
  apply (csv_row_round_trip ["Jumbo, Centrum"; " 12 "; "1012 JS"]%string).
  discriminate.
Defined.

(** ** Counts of a result *)

Lemma distinct_length (l : list string) : length (distinct l) <= length l.
Proof.
  apply NoDup_incl_length; [apply distinct_NoDup |].
  intros x Hx. exact (proj1 (distinct_In l x) Hx).
Qed.

(** [generateResult]: the numbers of distinct regions and of distinct
    retailers never exceed the number of selected stores, and both are at
    least one as soon as a store is selected. *)
Theorem result_counts_bounded `{Rounding}
  (selected allStores : list StoreData) :
  let st := statistics (generateResult selected allStores) in
  uniqueRegions st <= totalStores st
  /\ uniqueRetailers st <= totalStores st
  /\ (selected <> [] -> 1 <= uniqueRegions st /\ 1 <= uniqueRetailers st).
Proof.
  unfold generateResult.
  cbn [statistics uniqueRegions uniqueRetailers totalStores].
  split; [| split].
  - etransitivity; [apply distinct_length | now rewrite length_map].
  - etransitivity; [apply distinct_length | now rewrite length_map].
  - intros Hne. destruct selected as [| s rest]; [congruence |].
    unfold distinct. simpl. lia.
Qed.

(** ** Revenue focus maximises the total *)

Lemma sum_revenue_from (l : list StoreData) (a : Q) :
  (fold_left (fun sum store => sum + prodSelect store) l a
   == a + sum_revenue l)%Q.
Proof.
  unfold sum_revenue. revert a.
  induction l as [| x l IH]; intros a; simpl; [lra |].
  rewrite (IH (a + prodSelect x)%Q), (IH (0 + prodSelect x)%Q). lra.
Qed.

Lemma sum_revenue_cons (x : StoreData) (l : list StoreData) :
  (sum_revenue (x :: l) == prodSelect x + sum_revenue l)%Q.
Proof.
  unfold sum_revenue at 1. simpl. rewrite sum_revenue_from. lra.
Qed.

Lemma sum_revenue_app (l1 l2 : list StoreData) :
  (sum_revenue (l1 ++ l2) == sum_revenue l1 + sum_revenue l2)%Q.
Proof.
  induction l1 as [| x l1 IH]; simpl.
  - unfold sum_revenue at 2. simpl. lra.
  - rewrite !sum_revenue_cons, IH. lra.
Qed.

Lemma firstn_succ_bound (x : StoreData) (l : list StoreData) :
  Forall (ge_key prodSelect x) l ->
  forall n, n < length l ->
    (sum_revenue (firstn (S n) l)
     <= prodSelect x + sum_revenue (firstn n l))%Q.
Proof.
  induction 1 as [| y l Hxy Hxl IH]; intros n Hn; [simpl in Hn; lia |].
  unfold ge_key in Hxy.
  destruct n as [| n].
  - simpl firstn. rewrite sum_revenue_cons.
    unfold sum_revenue. simpl. lra.
  - change (firstn (S (S n)) (y :: l)) with (y :: firstn (S n) l).
    change (firstn (S n) (y :: l)) with (y :: firstn n l).
    rewrite !sum_revenue_cons.
    assert (IH' := IH n ltac:(simpl in Hn; lia)). lra.
Qed.

Lemma firstn_cons_bound (x : StoreData) (l : list StoreData) (n : nat) :
  Forall (ge_key prodSelect x) l ->
  n <= length l ->
  (sum_revenue (firstn n l) <= sum_revenue (firstn n (x :: l)))%Q.
Proof.
  intros Hx Hn. destruct n as [| n]; [simpl; lra |].
  change (firstn (S n) (x :: l)) with (x :: firstn n l).
  rewrite sum_revenue_cons. apply firstn_succ_bound; [exact Hx | lia].
Qed.

(** In a list sorted by descending revenue, no choice of [n] entries sums
    to more than the first [n]. *)
Lemma sorted_prefix_maximal (l : list StoreData) :
  StronglySorted (ge_key prodSelect) l ->
  forall other rest,
    Permutation l (other ++ rest) ->
    (sum_revenue other <= sum_revenue (firstn (length other) l))%Q.
Proof.
  induction 1 as [| x l Hs IH Hx]; intros other rest Hperm.
  - apply Permutation_nil in Hperm. apply app_eq_nil in Hperm.
    destruct Hperm as [-> _]. simpl. lra.
  - assert (Hin : In x (other ++ rest))
      by (apply (Permutation_in x Hperm); now left).
    apply in_app_or in Hin. destruct Hin as [Hin | Hin].
    + apply in_split in Hin. destruct Hin as (o1 & o2 & ->).
      rewrite <- app_assoc in Hperm. simpl in Hperm.
      apply Permutation_cons_app_inv in Hperm.
      rewrite app_assoc in Hperm.
      specialize (IH (o1 ++ o2) rest Hperm).
      rewrite length_app. simpl. rewrite Nat.add_succ_r, <- length_app.
      change (firstn (S (length (o1 ++ o2))) (x :: l))
        with (x :: firstn (length (o1 ++ o2)) l).
      rewrite sum_revenue_cons, sum_revenue_app, sum_revenue_cons.
      rewrite sum_revenue_app in IH. lra.
    + apply in_split in Hin. destruct Hin as (r1 & r2 & ->).
      rewrite app_assoc in Hperm.
      apply Permutation_cons_app_inv in Hperm.
      rewrite <- app_assoc in Hperm.
      specialize (IH other (r1 ++ r2) Hperm).
      assert (Hlen : length other <= length l).
      { apply Permutation_length in Hperm. rewrite length_app in Hperm. lia. }
      eapply Qle_trans; [exact IH |].
      now apply firstn_cons_bound.
Qed.

(** Revenue focus does what its name says: its selection has the largest
    total revenue among all choices of as many candidates (sums taken
    exactly). *)
Theorem revenue_focus_maximal (stores : list StoreData) (target : Z)
  (other rest : list StoreData) :
  (0 <= target)%Z ->
  Permutation stores (other ++ rest) ->
  let selected := fst (revenueMaximizationSelection stores (mkTarget target)) in
  length other = length selected ->
  (sum_revenue other <= sum_revenue selected)%Q.
Proof.
  intros Ht Hperm selected Hlen.
  unfold selected, revenueMaximizationSelection in *. cbn [fst total] in *.
  set (sorted := sort by_revenue_desc stores) in *.
  rewrite slice_from_0 in * by lia.
  assert (Hs : StronglySorted (ge_key prodSelect) sorted)
    by apply sort_desc_strongly_sorted.
  assert (Hp : Permutation sorted (other ++ rest)).
  { etransitivity; [apply sort_perm | exact Hperm]. }
  pose proof (sorted_prefix_maximal sorted Hs other rest Hp) as Hmax.
  rewrite Hlen in Hmax.
  rewrite length_firstn in Hmax.
  replace (firstn (Nat.min (Z.to_nat target) (length sorted)) sorted)
    with (firstn (Z.to_nat target) sorted) in Hmax; [exact Hmax |].
  destruct (Nat.le_gt_cases (Z.to_nat target) (length sorted)).
  - f_equal. lia.
  - rewrite Nat.min_r by lia. now rewrite !firstn_all2 by lia.
Qed.

Lemma revenue_focus_maximal_witness :
  let a := sample 0 "Alfa 1" "North" 100 in
  let b := sample 1 "Alfa 2" "South" 300 in
  let c := sample 2 "Alfa 3" "North" 200 in
  (sum_revenue [a; c]
   <= sum_revenue
        (fst (revenueMaximizationSelection [a; b; c] (mkTarget 2))))%Q.
Proof.
  intros a b c.
  apply (revenue_focus_maximal [a; b; c] 2 [a; c] [b]).
  - lia.
  - change ([a; c] ++ [b]) with ([a] ++ c :: [b]).
    apply Permutation_cons; [reflexivity |]. apply perm_swap.
  - reflexivity.
Defined.

(** ** Segments of demographic targeting *)

Lemma append_sep_inj (sep : ascii) (a a' c c' : string) :
  contains sep a = false -> contains sep a' = false ->
  (a ++ String sep c)%string = (a' ++ String sep c')%string ->
  a = a' /\ c = c'.
Proof.
  revert a'. induction a as [| x a IH]; intros a' Ha Ha' E.
  - destruct a' as [| y a']; simpl in E.
    + split; congruence.
    + injection E as <- _. simpl in Ha'.
      rewrite Ascii.eqb_refl in Ha'. discriminate.
  - destruct a' as [| y a']; simpl in E.
    + injection E as -> _. simpl in Ha.
      rewrite Ascii.eqb_refl in Ha. discriminate.
    + injection E as <- E. simpl in Ha, Ha'.
      apply orb_false_iff in Ha. apply orb_false_iff in Ha'.
      destruct (IH a' (proj2 Ha) (proj2 Ha') E) as [-> ->].
      split; reflexivity.
Qed.

(** Demographic targeting keys a store by customer group, a hyphen and
    channel.  For customer groups without a hyphen (the validated values A
    to D and 1 to 9 are such) two stores share a segment exactly when they
    agree on both customer group and channel. *)
Theorem demographic_key_injective (s t : StoreData) :
  contains "-" (klantgroep s) = false ->
  contains "-" (klantgroep t) = false ->
  (demographic_key s = demographic_key t
   <-> klantgroep s = klantgroep t /\ kanaal s = kanaal t).
Proof.
  intros Hs Ht. unfold demographic_key. split.
  - intros E. now apply (append_sep_inj "-").
  - intros [-> ->]. reflexivity.
Qed.

Lemma demographic_key_injective_witness :
  let s := sample 0 "Alfa 1" "North" 100 in
  let t := sample 1 "Alfa 2" "South" 300 in
  demographic_key s = demographic_key t
  <-> klantgroep s = klantgroep t /\ kanaal s = kanaal t.
Proof.
  intros s t. apply (demographic_key_injective s t); reflexivity.
Defined.

(** With a hyphen in the customer group the key no longer tells the two
    fields apart. *)
Remark demographic_key_collision (s t : StoreData) (a b c : string) :
  klantgroep s = (a ++ "-" ++ b)%string -> kanaal s = c ->
  klantgroep t = a -> kanaal t = (b ++ "-" ++ c)%string ->
  demographic_key s = demographic_key t.
Proof.
  intros H1 H2 H3 H4. unfold demographic_key.
  rewrite H1, H2, H3, H4. now rewrite append_assoc.
Qed.

(** ** The demographic grouping returns *)

Lemma contains_append (c : ascii) (a b : string) :
  contains c (a ++ b)%string = contains c a || contains c b.
Proof.
  induction a as [| x a IH]; simpl; [reflexivity |].
  rewrite IH. now rewrite orb_assoc.
Qed.

Lemma demographic_key_own (store : StoreData) :
  inherited (demographic_key store) = false.
Proof.
  destruct (inherited (demographic_key store)) eqn:E; [| reflexivity].
  unfold inherited in E. apply existsb_exists in E.
  destruct E as (name & Hname & E). apply String.eqb_eq in E.
  assert (Hkey : contains "-" (demographic_key store) = true).
  { unfold demographic_key. rewrite contains_append. simpl.
    now rewrite orb_true_r. }
  assert (Hnames : forallb (fun n => negb (contains "-" n)) prototype_names
                   = true) by reflexivity.
  rewrite forallb_forall in Hnames. specialize (Hnames name Hname).
  rewrite <- E, Hkey in Hnames. discriminate.
Qed.

(** The reducer of demographic targeting never throws, whatever the
    customer groups and channels are: a key [klantgroep-kanaal] holds a
    hyphen, which no name of a member of [Object.prototype] does, so the
    object has a group under every key and holds what the dictionary
    holds. *)
Theorem demographic_grouping_returns (stores : list StoreData) :
  group_by_object demographic_key stores
  = Some (group_by demographic_key stores).
Proof.
  rewrite group_by_object_plain.
  replace (existsb (fun s => inherited (demographic_key s)) stores)
    with false; [reflexivity |].
  symmetry. induction stores as [| s stores IH]; simpl; [reflexivity |].
  now rewrite demographic_key_own, IH.
Qed.
